(** * ImagesSearch.vue: the review reconciliation logic

    A shallow embedding of [src/app/components/ImagesSearch.vue]: the
    accumulating search ([useAsyncData] handler and [page]), the projection
    of assets to review items ([allAssets]), the visibility filter
    ([items]), the pending-edit record [updates] with its merge watcher,
    [confirm] and [clearHidden].

    Modelling conventions.
    - The JS object [updates: Record<string, Item>] is a finite map
      [gmap string Item]; the [Set<string>] [alreadySeen] is a [gset string].
      Asset ids are Immich UUIDs, so no id collides with a property of
      [Object.prototype] ([__proto__]).  Nothing below depends on the
      enumeration order of [Object.values] or [for..in].
    - JS numbers that hold counts and page numbers are [Z].  Latitudes and
      longitudes are never computed with here, only copied, and are [Z] too.
    - [await]ed calls to the asset store are functions handed to the
      operation that performs them; what comes back is a sum of an error
      and a value.
    - [alert], [console.error] and [setTimeout] are returned as a list of
      effects.
    - A Vue watcher is the function of its callback; an event is the
      handler followed by the watchers it triggers.
    - The items [updates] holds are the objects of the cached [allAssets]
      array, and an edit made through the template writes to that shared
      object.  The model keeps values and recomputes [items] from [result].
      The two agree: a cached object differs from its fresh projection only
      after an edit, which leaves a location on it, so that the merge
      watcher keeps the entry whatever [items] offers; and an id leaves
      [items] only when [confirm] hides it, which also clears [result].
    - [confirm] is one step: while it waits for the store, [loading]
      disables the buttons and the confirm toggles. *)

From stdpp Require Import gmap strings list fin_maps.
From Stdlib Require Import ZArith Ascii String.

Local Open Scope string_scope.
Local Open Scope Z_scope.
Local Open Scope list_scope.

(** ** Strings: [toLowerCase] and [includes] *)

(** [String.prototype.toLowerCase], as far as the test against the ASCII
    literal ["screenshot"] can tell: the letters A-Z are mapped to a-z and
    every other code unit is kept.  (The only characters outside ASCII whose
    lower case has an ASCII letter are the Kelvin sign, [k], and the dotted
    capital I, [i]; neither letter occurs in the literal.) *)
Definition toLowerAscii (c : ascii) : ascii :=
  let n := nat_of_ascii c in
  if (Nat.leb 65 n && Nat.leb n 90)%bool then ascii_of_nat (n + 32) else c.

Fixpoint toLowerCase (s : string) : string :=
  match s with
  | EmptyString => EmptyString
  | String c s' => String (toLowerAscii c) (toLowerCase s')
  end.

Fixpoint startsWith (needle hay : string) : bool :=
  match needle, hay with
  | EmptyString, _ => true
  | String _ _, EmptyString => false
  | String a n', String b h' => (Ascii.eqb a b && startsWith n' h')%bool
  end.

(** [hay.includes(needle)] *)
Fixpoint includes (needle hay : string) : bool :=
  match hay with
  | EmptyString => startsWith needle EmptyString
  | String _ h' => (startsWith needle hay || includes needle h')%bool
  end.

(** "The name contains [word], whatever the case of its letters": some
    substring of the name lower-cases to [word]. *)
Definition containsIgnoringCase (word name : string) : Prop :=
  exists pre mid post,
    name = String.append pre (String.append mid post)
    /\ toLowerCase mid = word.

(** Case-insensitive matching, stated without [toLowerCase]: the table of
    the 26 letters, capital beside small. *)
Definition letters : list (ascii * ascii) :=
  combine (list_ascii_of_string "ABCDEFGHIJKLMNOPQRSTUVWXYZ")
          (list_ascii_of_string "abcdefghijklmnopqrstuvwxyz").

(** [c] and [d] are the same character, or the two cases of one letter. *)
Definition sameLetter (c d : ascii) : Prop :=
  c = d \/ In (c, d) letters \/ In (d, c) letters.

Definition sameLetterb (c d : ascii) : bool :=
  (Ascii.eqb c d
   || existsb (fun p => (Ascii.eqb c p.1 && Ascii.eqb d p.2)
                        || (Ascii.eqb d p.1 && Ascii.eqb c p.2)) letters)%bool.

(** [s] is [t] up to the case of its letters. *)
Fixpoint equalIgnoringCase (s t : string) : Prop :=
  match s, t with
  | EmptyString, EmptyString => True
  | String c s', String d t' => sameLetter c d /\ equalIgnoringCase s' t'
  | _, _ => False
  end.

(** "The name contains [word] case-insensitively": some substring of the
    name is [word] up to the case of its letters. *)
Definition mentionsIgnoringCase (word name : string) : Prop :=
  exists pre mid post,
    name = String.append pre (String.append mid post)
    /\ equalIgnoringCase mid word.

(** [word] is made of small letters a-z only. *)
Definition smallLetterWord (word : string) : bool :=
  forallb (fun d => existsb (fun p => Ascii.eqb d p.2) letters)
    (list_ascii_of_string word).

(** Every character. *)
Definition allAscii : list ascii := map ascii_of_nat (seq 0 256).

(** ** Data *)

(** The fields of [AssetResponseDto] the component reads. *)
Record AssetResponseDto := {
  id : string;
  fileCreatedAt : string;
  originalFileName : string;
}.

(** [asset.id] of each asset of a list. *)
Definition assetIds (l : list AssetResponseDto) : list string :=
  map (fun a => id a) l.

Record LatLng := { lat : Z; lng : Z }.

(** What can be thrown: a rejection of a store call, or the [TypeError] of
    reading a property of [undefined]. *)
Inductive JsError :=
| StoreError (msg : string)
| TypeError (msg : string).

(** [Promise] outcomes, and the outcome of an expression that may throw. *)
Inductive Settled (A : Type) :=
| Fulfilled (a : A)
| Rejected (e : JsError).
Arguments Fulfilled {A} a.
Arguments Rejected {A} e.

(** The estimator's answer, as the projection destructures it:
    [{ bestEstimate = null, estimateSource, segments = [] }]; a field that is
    [undefined] (or [null]) is [None]. *)
Record BestEstimate := { point : LatLng }.

Record EstimateResult (Seg : Type) := {
  bestEstimate : option BestEstimate;
  estimateSource : option string;
  segments : option (list Seg);
}.
Arguments bestEstimate {Seg} _.
Arguments estimateSource {Seg} _.
Arguments segments {Seg} _.

(** [TransformedSearchResponse] *)
Record TransformedSearchResponse := {
  assets : list AssetResponseDto;
  hasNextPage : bool;
}.

(** The argument and the answer of [searchAssets] (the [assets] member of
    the SDK's response, which is all the handler reads).  [dto_tagIds],
    [dto_isNotInAlbum], [dto_size] and [dto_page] are the request's
    [tagIds], [isNotInAlbum], [size] and [page]. *)
Record MetadataSearchDto := {
  country : string;
  withExif : bool;
  isVisible : bool;
  dto_tagIds : list string;
  dto_isNotInAlbum : bool;
  model : option string;
  dto_size : Z;
  dto_page : Z;
}.

Record SearchAssetResponseDto := {
  page_items : list AssetResponseDto;
  nextPage : option string;
}.

(** The argument of [updateAsset]. *)
Record UpdateAssetDto := {
  upd_id : string;
  latitude : Z;
  longitude : Z;
}.

(** The collaborators the component imports: [useTimeline]
    ([estimateLocationAtTime], which reads the uploaded timeline),
    [segmentToGeometry], [Date], and what [useAsyncData] leaves in [data]
    when its handler rejects. *)
Class Externals := {
  Segment : Type;
  Geometry : Type;
  Timeline : Type;
  Date : Type;
  newDate : string -> Date;
  estimateLocationAtTime : Timeline -> Date -> option (EstimateResult Segment);
  segmentToGeometry : Segment -> option Geometry;
  asyncDataOnError :
    option TransformedSearchResponse -> option TransformedSearchResponse;
}.

(** The component's props. *)
Record Props := {
  tagIds : list string;
  isNotInAlbum : bool;
  cameraModel : option string;
  pageSize : Z;
}.

Inductive AsyncDataStatus := Idle | Pending | Success | Error.

(** What [useAsyncData] returns: [data] (named [result]), [error], [status]. *)
Record AsyncData := {
  data : option TransformedSearchResponse;
  error : option JsError;
  status : AsyncDataStatus;
}.

Inductive Effect :=
| Alert (msg : string)
| ConsoleError (e : JsError)
| SetTimeoutExecute (ms : Z).

Section Component.
Context `{Ext : Externals}.

Record Item := {
  asset : AssetResponseDto;
  estimatedLocation : option LatLng;
  geometry : list Geometry;
  confirmEdit : bool;
}.

Record State := {
  props : Props;
  timeline : Timeline;
  page : Z;
  result : AsyncData;
  alreadySeen : gset string;
  updates : gmap string Item;
  loading : bool;
}.

(** *** Field updates *)

Definition set_props (p : Props) (st : State) : State :=
  {| props := p; timeline := timeline st; page := page st;
     result := result st; alreadySeen := alreadySeen st;
     updates := updates st; loading := loading st |}.

Definition set_timeline (t : Timeline) (st : State) : State :=
  {| props := props st; timeline := t; page := page st;
     result := result st; alreadySeen := alreadySeen st;
     updates := updates st; loading := loading st |}.

Definition set_page (n : Z) (st : State) : State :=
  {| props := props st; timeline := timeline st; page := n;
     result := result st; alreadySeen := alreadySeen st;
     updates := updates st; loading := loading st |}.

Definition set_result (r : AsyncData) (st : State) : State :=
  {| props := props st; timeline := timeline st; page := page st;
     result := r; alreadySeen := alreadySeen st;
     updates := updates st; loading := loading st |}.

Definition set_alreadySeen (s : gset string) (st : State) : State :=
  {| props := props st; timeline := timeline st; page := page st;
     result := result st; alreadySeen := s;
     updates := updates st; loading := loading st |}.

Definition set_updates (m : gmap string Item) (st : State) : State :=
  {| props := props st; timeline := timeline st; page := page st;
     result := result st; alreadySeen := alreadySeen st;
     updates := m; loading := loading st |}.

Definition set_loading (b : bool) (st : State) : State :=
  {| props := props st; timeline := timeline st; page := page st;
     result := result st; alreadySeen := alreadySeen st;
     updates := updates st; loading := b |}.

(** ** The accumulating search (lines 25-63) *)

(** [result?.value?.assets ?? []] *)
Definition accumulated (st : State) : list AssetResponseDto :=
  match data (result st) with
  | Some r => assets r
  | None => []
  end.

Definition searchRequest (st : State) : MetadataSearchDto :=
  {| country := ""; withExif := true; isVisible := true;
     dto_tagIds := tagIds (props st);
     dto_isNotInAlbum := isNotInAlbum (props st);
     model := cameraModel (props st);
     dto_size := pageSize (props st);
     dto_page := page st |}.

(** The handler given to [useAsyncData]. *)
Definition handler
  (searchAssets : MetadataSearchDto -> Settled SearchAssetResponseDto)
  (st : State) : Settled TransformedSearchResponse :=
  let previousAssets := accumulated st in
  match searchAssets (searchRequest st) with
  | Rejected e => Rejected e
  | Fulfilled r =>
      Fulfilled {| assets := previousAssets ++ page_items r;
                   hasNextPage := bool_decide (nextPage r <> None) |}
  end.

(** [useAsyncData] once the handler has settled. *)
Definition asyncDataSettle (o : Settled TransformedSearchResponse)
  (a : AsyncData) : AsyncData :=
  match o with
  | Fulfilled r => {| data := Some r; error := None; status := Success |}
  | Rejected e =>
      {| data := asyncDataOnError (data a); error := Some e; status := Error |}
  end.

(** [execute()]: one run of the handler at the current page. *)
Definition execute
  (searchAssets : MetadataSearchDto -> Settled SearchAssetResponseDto)
  (st : State) : State :=
  set_result (asyncDataSettle (handler searchAssets st) (result st)) st.

(** [clear()] *)
Definition clear (st : State) : State :=
  set_result {| data := None; error := None; status := Idle |} st.

(** The "Load more items" button: [page++]; the [watch: [page]] option of
    [useAsyncData] then runs the handler. *)
Definition loadMore
  (searchAssets : MetadataSearchDto -> Settled SearchAssetResponseDto)
  (st : State) : State :=
  execute searchAssets (set_page (page st + 1) st).

(** What the watcher on the search props (lines 65-73) writes before it
    calls [execute()]: [clear()] and [page.value = 1].  The whole body,
    with the search its [execute()] sends, is [propsWatcher] below. *)
Definition filterChanged (st : State) : State :=
  set_page 1 (clear st).

(** A search that has been sent and is not answered yet: the request, and
    the [previousAssets] the handler read before it awaited. *)
Record SearchInFlight := {
  request : MetadataSearchDto;
  previousAssets : list AssetResponseDto;
}.

(** [execute()] up to the [await] of the handler: [useAsyncData] sets
    [status] to pending, the handler reads [previousAssets] and sends the
    search for the current props and page. *)
Definition executeStart (st : State) : State * SearchInFlight :=
  (set_result {| data := data (result st); error := error (result st);
                 status := Pending |} st,
   {| request := searchRequest st; previousAssets := accumulated st |}).

(** The rest of the handler, and the settling of [useAsyncData], once the
    store has answered the search [f]. *)
Definition executeEnd (answer : Settled SearchAssetResponseDto)
  (f : SearchInFlight) (st : State) : State :=
  let outcome :=
    match answer with
    | Rejected e => Rejected e
    | Fulfilled r =>
        Fulfilled {| assets := previousAssets f ++ page_items r;
                     hasNextPage := bool_decide (nextPage r <> None) |}
    end in
  set_result (asyncDataSettle outcome (result st)) st.

(** The watcher on the search props (lines 65-73), whole: [clear()],
    [page.value = 1], [execute()].  The list holds the searches it has
    sent. *)
Definition propsWatcher (st : State) : State * list SearchInFlight :=
  let started := executeStart (filterChanged st) in
  (started.1, [started.2]).

(** ** Projection and visibility (lines 84-113) *)

Definition isSome {A : Type} (o : option A) : bool :=
  match o with Some _ => true | None => false end.

Definition project (tl : Timeline) (a : AssetResponseDto) : Item :=
  let r := estimateLocationAtTime tl (newDate (fileCreatedAt a)) in
  let best := r ≫= bestEstimate in
  let source := r ≫= estimateSource in
  let segs := default [] (r ≫= segments) in
  {| asset := a;
     estimatedLocation := point <$> best;
     geometry := omap segmentToGeometry segs;
     confirmEdit :=
       (isSome best
        && bool_decide (source = Some "timelinePath")
        && negb (includes "screenshot" (toLowerCase (originalFileName a))))%bool |}.

Definition allAssets (st : State) : list Item :=
  map (project (timeline st)) (accumulated st).

Definition visible (seen : gset string) (it : Item) : bool :=
  negb (bool_decide (id (asset it) ∈ seen)).

Definition items (st : State) : list Item :=
  List.filter (visible (alreadySeen st)) (allAssets st).

Definition alreadySeenCount (st : State) : Z :=
  Z.of_nat (List.length (allAssets st)) - Z.of_nat (List.length (items st)).

(** ** The merge watcher (lines 118-132) *)

(** One turn of the first loop. *)
Definition fill1 (m : gmap string Item) (item : Item) : gmap string Item :=
  match m !! id (asset item) with
  | None => <[id (asset item) := item]> m
  | Some e =>
      match estimatedLocation e with
      | None => <[id (asset item) := item]> m
      | Some _ => m
      end
  end.

Definition fill (its : list Item) (m : gmap string Item) : gmap string Item :=
  foldl fill1 m its.

(** [items.some((item) => item.asset.id === id)] *)
Definition someId (its : list Item) (k : string) : bool :=
  existsb (fun item => String.eqb (id (asset item)) k) its.

(** The second loop: [delete] every key no item carries. *)
Definition prune (its : list Item) (m : gmap string Item) : gmap string Item :=
  filter (fun kv => Is_true (someId its kv.1)) m.

Definition merge (its : list Item) (m : gmap string Item) : gmap string Item :=
  prune its (fill its m).

(** The watcher, run on the current [items]. *)
Definition flush (st : State) : State :=
  set_updates (merge (items st) (updates st)) st.

(** Successive runs of the watcher on successive values of [items]. *)
Definition merges (m : gmap string Item) (viss : list (list Item))
  : gmap string Item :=
  foldl (fun m its => merge its m) m viss.

(** ** [confirm] (lines 134-186) *)

(** [Object.values(updates.value)] *)
Definition values (m : gmap string Item) : list Item :=
  (map_to_list m).*2.

Definition confirmedUpdates (st : State) : list Item :=
  List.filter confirmEdit (values (updates st)).

Definition unconfirmedUpdates (st : State) : list Item :=
  List.filter (fun item => negb (confirmEdit item)) (values (updates st)).

(** [confirmedUpdates.value.map((item) => updateAsset({...}))]: the
    callback reads [item.estimatedLocation!.lat], which throws when the
    location is [undefined]; the calls made before that have been sent. *)
Fixpoint sendUpdates (updateAsset : UpdateAssetDto -> Settled unit)
  (batch : list Item) : Settled (list (Settled unit)) :=
  match batch with
  | [] => Fulfilled []
  | item :: rest =>
      match estimatedLocation item with
      | None => Rejected (TypeError "Cannot read properties of undefined")
      | Some p =>
          let promise :=
            updateAsset {| upd_id := id (asset item);
                           latitude := lat p; longitude := lng p |} in
          match sendUpdates updateAsset rest with
          | Rejected e => Rejected e
          | Fulfilled ps => Fulfilled (promise :: ps)
          end
      end
  end.

(** [await Promise.all(ps)]: rejected as soon as one promise is.  Which
    rejection comes first is decided by the store; the model reports the
    first in batch order. *)
Fixpoint promiseAll (ps : list (Settled unit)) : Settled (list unit) :=
  match ps with
  | [] => Fulfilled []
  | Rejected e :: _ => Rejected e
  | Fulfilled v :: rest =>
      match promiseAll rest with
      | Rejected e => Rejected e
      | Fulfilled vs => Fulfilled (v :: vs)
      end
  end.

(** The [try] block. *)
Definition saveAll (updateAsset : UpdateAssetDto -> Settled unit)
  (st : State) : Settled (list unit) :=
  match sendUpdates updateAsset (confirmedUpdates st) with
  | Rejected e => Rejected e
  | Fulfilled ps => promiseAll ps
  end.

(** [Math.ceil(a / b)] for integers [a] and [b <> 0] ([Z.div] rounds down).
    For [b = 0] JS gives an infinity or [NaN], which [Z] does not have:
    the statements about [recomputePage] assume [pageSize > 0]. *)
Definition ceilDiv (a b : Z) : Z := - ((- a) / b).

(** [n || 1]: [0] is the falsy integer. *)
Definition orOne (n : Z) : Z := if n =? 0 then 1 else n.

Definition recomputePage (totalItemsCount confirmedUpdatesCount pageSize : Z) : Z :=
  orOne (ceilDiv (totalItemsCount - confirmedUpdatesCount) pageSize).

Definition hide (seen : gset string) (its : list Item) : gset string :=
  foldl (fun s item => {[ id (asset item) ]} ∪ s) seen its.

Definition errorMessage : string := "Error saving changes, check the console".

Definition savedMessage : string :=
  "Locations saved, but it may take some time for Immich to finish reverse-geocoding. Please reload the page if you see images you already confirmed".

Definition confirm (hideRest : bool)
  (updateAsset : UpdateAssetDto -> Settled unit)
  (st : State) : State * list Effect :=
  match saveAll updateAsset st with
  | Rejected e =>
      (set_loading false st, [Alert errorMessage; ConsoleError e])
  | Fulfilled _ =>
      let totalItemsCount := Z.of_nat (List.length (items st)) in
      let confirmedUpdatesCount := Z.of_nat (List.length (confirmedUpdates st)) in
      let seen :=
        if hideRest then hide (alreadySeen st) (unconfirmedUpdates st)
        else alreadySeen st in
      let st1 := set_alreadySeen seen (set_loading false st) in
      let st2 := set_updates ∅ (clear st1) in
      (set_page
         (recomputePage totalItemsCount confirmedUpdatesCount
            (pageSize (props st))) st2,
       [Alert savedMessage; SetTimeoutExecute 500])
  end.

(** What the promise returned by [confirm()] settles to.  The [catch]
    block alerts, logs and [return]s, and otherwise the function runs to
    its end: on both paths the promise is fulfilled with [undefined], and
    the error of the store is not handed to the caller. *)
Definition confirmResult (hideRest : bool)
  (updateAsset : UpdateAssetDto -> Settled unit)
  (st : State) : Settled unit :=
  match saveAll updateAsset st with
  | Rejected _ => Fulfilled tt
  | Fulfilled _ => Fulfilled tt
  end.

(** ** [clearHidden] (lines 188-195) *)

Definition clearHidden (st : State) : State :=
  let seenItems :=
    List.filter (fun it => bool_decide (id (asset it) ∈ alreadySeen st))
      (allAssets st) in
  set_alreadySeen
    (foldl (fun s it => s ∖ {[ id (asset it) ]}) (alreadySeen st) seenItems)
    st.

(** ** Edits made through the template (lines 204-221) *)

(** [:disable-confirm] of the entry for [k]. *)
Definition disableConfirm (st : State) (k : string) : bool :=
  match updates st !! k with
  | Some e => (negb (isSome (estimatedLocation e)) || loading st)%bool
  | None => true
  end.

(** [v-model:confirm-edit="updates[asset.id].confirmEdit"] *)
Definition setConfirmEdit (k : string) (b : bool) (st : State) : State :=
  set_updates
    (alter (fun e => {| asset := asset e;
                        estimatedLocation := estimatedLocation e;
                        geometry := geometry e; confirmEdit := b |})
       k (updates st)) st.

(** [v-model="updates[asset.id].estimatedLocation"] followed by
    [@update:model-value="updates[asset.id].confirmEdit = true"]. *)
Definition moveMarker (k : string) (p : LatLng) (st : State) : State :=
  set_updates
    (alter (fun e => {| asset := asset e;
                        estimatedLocation := Some p;
                        geometry := geometry e; confirmEdit := true |})
       k (updates st)) st.

(** ** Events

    An event is a handler followed by the watcher on [items] whenever the
    handler wrote something [items] is computed from ([result],
    [alreadySeen], the timeline).  Watchers run before the next user action
    and before the answer of a request that was sent in the same turn. *)

(** The handler has settled (first load, [page] changed, [execute()]). *)
Definition fetchEvent
  (searchAssets : MetadataSearchDto -> Settled SearchAssetResponseDto)
  (st : State) : State :=
  flush (execute searchAssets st).

Definition loadMoreEvent
  (searchAssets : MetadataSearchDto -> Settled SearchAssetResponseDto)
  (st : State) : State :=
  flush (loadMore searchAssets st).

(** The search props changed to [p]: the watcher body runs, then the
    watcher on [items]; the answer of [execute()] is a later [fetchEvent]. *)
Definition filterEvent (p : Props) (st : State) : State :=
  flush (filterChanged (set_props p st)).

Definition clearHiddenEvent (st : State) : State :=
  flush (clearHidden st).

Definition initial (p : Props) (tl : Timeline) (seen : gset string) : State :=
  {| props := p; timeline := tl; page := 1;
     result := {| data := None; error := None; status := Idle |};
     alreadySeen := seen; updates := ∅; loading := false |}.

(** One constructor per event.  [ImmichAsset] and [LeafletMap] are not
    among the sources; what the template binds to them is: the confirm
    toggle writes [confirmEdit] of its entry and is bound to
    [disable-confirm], so it is taken to fire only where that expression is
    false; a move of the marker writes a [LatLng] to [estimatedLocation]
    and then sets [confirmEdit].  The [:disabled] expressions of the
    buttons are left out: with fewer guards more states are reachable. *)
Inductive step : State -> State -> Prop :=
| step_fetch searchAssets st :
    step st (fetchEvent searchAssets st)
| step_loadMore searchAssets st :
    step st (loadMoreEvent searchAssets st)
| step_filter p st :
    step st (filterEvent p st)
| step_timeline tl st :
    step st (flush (set_timeline tl st))
| step_confirmEdit k b st :
    disableConfirm st k = false ->
    step st (setConfirmEdit k b st)
| step_moveMarker k p st :
    step st (moveMarker k p st)
| step_confirm_saved hideRest updateAsset st vs :
    saveAll updateAsset st = Fulfilled vs ->
    step st (flush (confirm hideRest updateAsset st).1)
| step_confirm_failed hideRest updateAsset st e :
    saveAll updateAsset st = Rejected e ->
    step st (confirm hideRest updateAsset st).1
| step_clearHidden st :
    step st (clearHiddenEvent st).

Inductive reachable : State -> Prop :=
| reachable_initial p tl seen : reachable (initial p tl seen)
| reachable_step st st' : reachable st -> step st st' -> reachable st'.

(** ** Properties stated on the model *)

Definition ids (its : list Item) : list string :=
  map (fun it => id (asset it)) its.

(** Every entry that is marked for saving has a location. *)
Definition confirmable (m : gmap string Item) : Prop :=
  forall k e, m !! k = Some e -> confirmEdit e = true ->
    is_Some (estimatedLocation e).

(** The keys of [updates] are the ids of the visible items. *)
Definition keysInSync (st : State) : Prop :=
  dom (updates st) = list_to_set (ids (items st)).

(** What the first loop of the merge watcher does to the entry of one key
    [k]: an entry with a location is kept, any other is replaced by the
    item that carries [k]. *)
Definition protected (o : option Item) : bool :=
  match o with
  | Some e => isSome (estimatedLocation e)
  | None => false
  end.

Definition pick1 (k : string) (o : option Item) (item : Item) : option Item :=
  if bool_decide (id (asset item) = k)
  then (if protected o then o else Some item)
  else o.

Definition pick (k : string) (o : option Item) (its : list Item)
  : option Item :=
  foldl (pick1 k) o its.

(** The number of projected items whose id is in [alreadySeen]. *)
Definition hiddenItems (st : State) : list Item :=
  List.filter (fun it => bool_decide (id (asset it) ∈ alreadySeen st))
    (allAssets st).

(** The answer of the store to the search at page [n] under the props of
    [st] (nothing when the call is rejected). *)
Definition pageAt
  (searchAssets : MetadataSearchDto -> Settled SearchAssetResponseDto)
  (st : State) (n : Z) : list AssetResponseDto :=
  match searchAssets (searchRequest (set_page n st)) with
  | Fulfilled r => page_items r
  | Rejected _ => []
  end.

Definition succeedsAt
  (searchAssets : MetadataSearchDto -> Settled SearchAssetResponseDto)
  (st : State) (n : Z) : Prop :=
  exists r, searchAssets (searchRequest (set_page n st)) = Fulfilled r.

(** The specification's "a commit in which an update fails returns a
    CommitError". *)
Definition commitReturnsError : Prop :=
  forall hideRest updateAsset st e,
    saveAll updateAsset st = Rejected e ->
    exists e', confirmResult hideRest updateAsset st = Rejected e'.

(** The specification's "a failed fetch surfaces the error and leaves the
    accumulated list and the page as they were before the call", for a
    fetch started by the "Load more items" button. *)
Definition loadMoreFailurePreserves : Prop :=
  forall searchAssets st e,
    searchAssets (searchRequest (set_page (page st + 1) st)) = Rejected e ->
    error (result (loadMore searchAssets st)) = Some e
    /\ accumulated (loadMore searchAssets st) = accumulated st
    /\ page (loadMore searchAssets st) = page st.

(** The specification's "after N fetches every asset id is in the
    accumulated list at most once", from an empty accumulation. *)
Definition accumulationDeduplicates : Prop :=
  forall searchAssets p tl seen n,
    (forall k, succeedsAt searchAssets (initial p tl seen) k) ->
    NoDup (assetIds
      (accumulated
         (Nat.iter n (loadMore searchAssets)
            (execute searchAssets (initial p tl seen))))).

(** ** Template expressions (lines 198-258) *)

(** [:disabled] of "Load more items":
    [!result?.hasNextPage || status === 'pending' || loading]. *)
Definition loadMoreDisabled (st : State) : bool :=
  (negb (match data (result st) with
         | Some r => hasNextPage r
         | None => false
         end)
   || match status (result st) with Pending => true | _ => false end
   || loading st)%bool.

(** [:disabled] of both save buttons:
    [confirmedUpdates.length === 0 || loading]. *)
Definition saveDisabled (st : State) : bool :=
  ((Z.of_nat (List.length (confirmedUpdates st)) =? 0) || loading st)%bool.

(** [v-if="items.length === 0"] of the "No images found" message. *)
Definition noImagesFound (st : State) : bool :=
  Z.of_nat (List.length (items st)) =? 0.

(** The [updateAsset] calls the [map] callback of [confirm] has made when it
    returns or throws: one per entry, in order, up to the first entry
    without a location. *)
Fixpoint sentRequests (batch : list Item) : list UpdateAssetDto :=
  match batch with
  | [] => []
  | item :: rest =>
      match estimatedLocation item with
      | None => []
      | Some p =>
          {| upd_id := id (asset item);
             latitude := lat p; longitude := lng p |}
          :: sentRequests rest
      end
  end.

(** Every entry of [updates] sits under the id of its own asset (the
    template reads the entry of an article as [updates[asset.id]]). *)
Definition keyed (m : gmap string Item) : Prop :=
  forall k e, m !! k = Some e -> id (asset e) = k.

End Component.

(** ** A concrete instance, for closed examples

    The model above is generic in its collaborators; this instance serves
    to evaluate it.  The estimator has a best estimate for the timestamps
    ["10"] and ["30"] and nothing else; here [useAsyncData] keeps [data]
    when the handler rejects. *)
Definition demoEstimate (_ : unit) (d : string)
  : option (EstimateResult unit) :=
  if bool_decide (d = "10")
  then Some {| bestEstimate := Some {| point := {| lat := 1; lng := 2 |} |};
               estimateSource := Some "timelinePath";
               segments := Some [tt] |}
  else if bool_decide (d = "30")
  then Some {| bestEstimate := Some {| point := {| lat := 3; lng := 4 |} |};
               estimateSource := Some "timelinePath";
               segments := None |}
  else None.

Definition demoExt : Externals :=
  {| Segment := unit; Geometry := unit; Timeline := unit; Date := string;
     newDate := fun s => s;
     estimateLocationAtTime := demoEstimate;
     segmentToGeometry := fun s => Some s;
     asyncDataOnError := fun d => d |}.

Definition assetA : AssetResponseDto :=
  {| id := "A"; fileCreatedAt := "10"; originalFileName := "a.jpg" |}.
Definition assetB : AssetResponseDto :=
  {| id := "B"; fileCreatedAt := "20"; originalFileName := "b.jpg" |}.
Definition assetC : AssetResponseDto :=
  {| id := "C"; fileCreatedAt := "30"; originalFileName := "c.jpg" |}.

Definition demoProps : Props :=
  {| tagIds := []; isNotInAlbum := true; cameraModel := None; pageSize := 2 |}.

(** A store with two pages, [A, B] and [C]. *)
Definition demoStore (q : MetadataSearchDto) : Settled SearchAssetResponseDto :=
  if dto_page q =? 1
  then Fulfilled {| page_items := [assetA; assetB]; nextPage := Some "2" |}
  else if dto_page q =? 2
  then Fulfilled {| page_items := [assetC]; nextPage := None |}
  else Fulfilled {| page_items := []; nextPage := None |}.

(** A store that answers every page with the same asset. *)
Definition overlappingStore (_ : MetadataSearchDto)
  : Settled SearchAssetResponseDto :=
  Fulfilled {| page_items := [assetA]; nextPage := Some "next" |}.

Definition failingStore (_ : MetadataSearchDto)
  : Settled SearchAssetResponseDto :=
  Rejected (StoreError "unreachable").

Definition demoInitial : @State demoExt :=
  initial (Ext := demoExt) demoProps tt ∅.

Definition demoLoaded : @State demoExt :=
  loadMoreEvent demoStore (fetchEvent demoStore demoInitial).

Definition demoFetched : @State demoExt := fetchEvent demoStore demoInitial.

(** A store that rejects the update of asset [A], and one that accepts
    every update. *)
Definition rejectA (q : UpdateAssetDto) : Settled unit :=
  if bool_decide (upd_id q = "A") then Rejected (StoreError "update failed")
  else Fulfilled tt.

Definition acceptAll (_ : UpdateAssetDto) : Settled unit := Fulfilled tt.

Definition itemA : @Item demoExt := project (Ext := demoExt) tt assetA.
Definition itemB : @Item demoExt := project (Ext := demoExt) tt assetB.

Definition pointA : LatLng := {| lat := 1; lng := 2 |}.

Definition firstPage : SearchAssetResponseDto :=
  {| page_items := [assetA; assetB]; nextPage := Some "2" |}.

(** [demoLoaded] after "Save changes and hide the rest" and the refetch:
    [A] and [B] are accumulated again, [B] is hidden. *)
Definition demoHidden : @State demoExt :=
  fetchEvent demoStore (flush (confirm true acceptAll demoLoaded).1).

Definition pointB : LatLng := {| lat := 5; lng := 6 |}.

(** The same collaborators with a [useAsyncData] that puts [data] back to
    its default when the handler rejects. *)
Definition resettingExt : Externals :=
  {| Segment := unit; Geometry := unit; Timeline := unit; Date := string;
     newDate := fun s => s;
     estimateLocationAtTime := demoEstimate;
     segmentToGeometry := fun s => Some s;
     asyncDataOnError := fun _ => None |}.

(** * Properties *)

(** ** Strings *)

Lemma startsWith_spec (needle hay : string) :
  startsWith needle hay = true <->
  exists post, hay = String.append needle post.
Proof.
  revert hay. induction needle as [|a n IH]; intros hay; simpl.
  - split; [intros _; by exists hay | done].
  - destruct hay as [|b h].
    + split; [done | intros [post Hp]; discriminate].
    + rewrite andb_true_iff, Ascii.eqb_eq, IH. split.
      * intros [-> [post ->]]. by exists post.
      * intros [post Hp]. injection Hp as -> ->. eauto.
Qed.

Lemma includes_spec (needle hay : string) :
  includes needle hay = true <->
  exists pre post, hay = String.append pre (String.append needle post).
Proof.
  induction hay as [|b h IH]; simpl.
  - rewrite startsWith_spec. split.
    + intros [post Hp]. by exists EmptyString, post.
    + intros [pre [post Hp]]. destruct pre; [by exists post | discriminate].
  - rewrite orb_true_iff, IH. split.
    + intros [Hs | [pre [post ->]]].
      * apply (startsWith_spec needle (String b h)) in Hs as [post Hp].
        by exists EmptyString, post.
      * by exists (String b pre), post.
    + intros [pre [post Hp]]. destruct pre as [|c pre]; simpl in Hp.
      * left. apply (startsWith_spec needle (String b h)). by exists post.
      * right. injection Hp as -> ->. eauto.
Qed.

Lemma toLowerCase_app (s t : string) :
  toLowerCase (String.append s t)
  = String.append (toLowerCase s) (toLowerCase t).
Proof. induction s as [|c s IH]; simpl; [done | by rewrite IH]. Qed.

Lemma toLowerCase_split (s x y : string) :
  toLowerCase s = String.append x y ->
  exists s1 s2, s = String.append s1 s2
    /\ toLowerCase s1 = x /\ toLowerCase s2 = y.
Proof.
  revert s. induction x as [|c x IH]; intros s Hs; simpl in Hs.
  - by exists EmptyString, s.
  - destruct s as [|d s]; [discriminate |]. simpl in Hs.
    injection Hs as Hc Hs. destruct (IH _ Hs) as (s1 & s2 & -> & H1 & H2).
    exists (String d s1), s2. simpl. by rewrite Hc, H1.
Qed.

Lemma includes_toLowerCase (word name : string) :
  includes word (toLowerCase name) = true <-> containsIgnoringCase word name.
Proof.
  rewrite includes_spec. split.
  - intros (pre & post & Hn).
    apply toLowerCase_split in Hn as (s1 & s2 & -> & _ & H2).
    apply toLowerCase_split in H2 as (s3 & s4 & -> & H3 & _).
    by exists s1, s3, s4.
  - intros (pre & mid & post & -> & Hm).
    exists (toLowerCase pre), (toLowerCase post).
    by rewrite !toLowerCase_app, Hm.
Qed.

Lemma sameLetterb_spec (c d : ascii) :
  sameLetterb c d = true <-> sameLetter c d.
Proof.
  unfold sameLetterb, sameLetter.
  rewrite orb_true_iff, Ascii.eqb_eq, existsb_exists. split.
  - intros [-> | ([u l] & Hin & Hp)]; [by left | right].
    simpl in Hp. apply orb_true_iff in Hp as [Hp | Hp];
      apply andb_true_iff in Hp as [H1 H2];
      apply Ascii.eqb_eq in H1, H2; subst; [by left | by right].
  - intros [-> | [Hin | Hin]]; [by left | right | right].
    + exists (c, d). split; [done |]. simpl.
      by rewrite !Ascii.eqb_refl.
    + exists (d, c). split; [done |]. simpl.
      rewrite !Ascii.eqb_refl. by rewrite orb_true_r.
Qed.

Lemma allAscii_complete (c : ascii) : In c allAscii.
Proof.
  unfold allAscii. rewrite <- (ascii_nat_embedding c).
  apply in_map, in_seq. pose proof (nat_ascii_bounded c). lia.
Qed.

(** On a small letter [d], "[c] lower-cases to [d]" and "[c] is [d] up to
    case" agree; checked on every pair of a character and a small letter. *)
Lemma toLowerAscii_table :
  forallb
    (fun c =>
       forallb
         (fun p => Bool.eqb (Ascii.eqb (toLowerAscii c) p.2)
                     (sameLetterb c p.2))
         letters)
    allAscii = true.
Proof. vm_compute. reflexivity. Qed.

Lemma toLowerAscii_sameLetter (c d : ascii) :
  existsb (fun p => Ascii.eqb d p.2) letters = true ->
  toLowerAscii c = d <-> sameLetter c d.
Proof.
  intros Hd. apply existsb_exists in Hd as (p & Hp & Heq).
  apply Ascii.eqb_eq in Heq. subst d.
  pose proof toLowerAscii_table as Ht.
  rewrite forallb_forall in Ht. specialize (Ht c (allAscii_complete c)).
  rewrite forallb_forall in Ht. specialize (Ht p Hp).
  apply Bool.eqb_prop in Ht.
  rewrite <- sameLetterb_spec, <- Ht. symmetry. apply Ascii.eqb_eq.
Qed.

Lemma toLowerCase_equalIgnoringCase (mid word : string) :
  smallLetterWord word = true ->
  toLowerCase mid = word <-> equalIgnoringCase mid word.
Proof.
  unfold smallLetterWord. revert word.
  induction mid as [|c mid IH]; intros [|d word] Hw; simpl in *;
    try (split; [discriminate | done]).
  - done.
  - apply andb_true_iff in Hw as [Hd Hw].
    rewrite <- (IH word Hw), <- (toLowerAscii_sameLetter c d Hd). split.
    + intros Heq. by injection Heq as -> ->.
    + intros [-> ->]. done.
Qed.

Lemma includes_mentions (word name : string) :
  smallLetterWord word = true ->
  includes word (toLowerCase name) = true <-> mentionsIgnoringCase word name.
Proof.
  intros Hw. rewrite includes_toLowerCase.
  unfold containsIgnoringCase, mentionsIgnoringCase.
  split; intros (pre & mid & post & Hn & Hm); exists pre, mid, post;
    (split; [done |]); by apply (toLowerCase_equalIgnoringCase mid word Hw).
Qed.

Section Properties.
Context `{Ext : Externals}.
Implicit Types (m : gmap string Item) (its : list Item) (k : string).
Implicit Types (e item : Item) (st : State).

(** ** The merge watcher *)

Lemma someId_elem_of its k : someId its k = true <-> k ∈ ids its.
Proof.
  unfold someId, ids. rewrite existsb_exists, list_elem_of_fmap.
  split.
  - intros (it & Hin & Heq). apply String.eqb_eq in Heq.
    exists it. split; [done | by apply list_elem_of_In].
  - intros (it & -> & Hin). exists it.
    split; [by apply list_elem_of_In | apply String.eqb_refl].
Qed.

Lemma fill1_lookup_ne m item k :
  id (asset item) <> k -> fill1 m item !! k = m !! k.
Proof.
  intros Hne. unfold fill1.
  destruct (m !! id (asset item)) as [e|]; [destruct (estimatedLocation e) |];
    by rewrite ?lookup_insert_ne.
Qed.

Lemma fill1_protect m item k e p :
  m !! k = Some e -> estimatedLocation e = Some p ->
  fill1 m item !! k = Some e.
Proof.
  intros Hk Hp. destruct (decide (id (asset item) = k)) as [Heq | Hne].
  - unfold fill1. by rewrite Heq, Hk, Hp.
  - by rewrite fill1_lookup_ne.
Qed.

Lemma fill_protect its m k e p :
  m !! k = Some e -> estimatedLocation e = Some p ->
  fill its m !! k = Some e.
Proof.
  unfold fill. revert m. induction its as [|item its IH]; intros m Hk Hp.
  - done.
  - simpl. apply IH; [by eapply fill1_protect | done].
Qed.

Lemma fill1_dom m item : dom (fill1 m item) = {[ id (asset item) ]} ∪ dom m.
Proof.
  unfold fill1. destruct (m !! id (asset item)) as [e|] eqn:Hk.
  - assert (Hin : id (asset item) ∈ dom m) by (apply elem_of_dom; eauto).
    destruct (estimatedLocation e); rewrite ?dom_insert_L;
      apply set_eq; intros j; rewrite elem_of_union, elem_of_singleton;
      rewrite ?elem_of_union, ?elem_of_singleton;
      split; try tauto; intros [-> | ?]; tauto.
  - by rewrite dom_insert_L.
Qed.

Lemma fill_dom its m : dom (fill its m) = list_to_set (ids its) ∪ dom m.
Proof.
  unfold fill. revert m. induction its as [|item its IH]; intros m; simpl.
  - by rewrite union_empty_l_L.
  - rewrite IH, fill1_dom. apply set_eq. intros j.
    rewrite !elem_of_union, elem_of_singleton. tauto.
Qed.

Lemma prune_lookup its m k :
  prune its m !! k = if someId its k then m !! k else None.
Proof.
  unfold prune. destruct (someId its k) eqn:Hs.
  - destruct (m !! k) as [e|] eqn:Hk.
    + apply map_lookup_filter_Some. split; [done | by apply Is_true_true].
    + apply map_lookup_filter_None. by left.
  - apply map_lookup_filter_None. right. intros e _ Hp.
    apply Is_true_true in Hp. simpl in Hp. congruence.
Qed.

Lemma merge_lookup its m k :
  merge its m !! k = if someId its k then fill its m !! k else None.
Proof. apply prune_lookup. Qed.

Lemma merge_dom its m : dom (merge its m) = list_to_set (ids its).
Proof.
  apply set_eq. intros k. rewrite elem_of_dom, merge_lookup, elem_of_list_to_set.
  rewrite <- someId_elem_of. destruct (someId its k) eqn:Hs.
  - split; [done | intros _]. apply elem_of_dom. rewrite fill_dom.
    apply elem_of_union_l, elem_of_list_to_set, someId_elem_of, Hs.
  - split; [intros [? ?]; done | done].
Qed.

Lemma fill1_lookup_cases m item k e :
  m !! k = Some e ->
  fill1 m item !! k = Some e
  \/ (id (asset item) = k /\ fill1 m item !! k = Some item).
Proof.
  intros Hk. destruct (decide (id (asset item) = k)) as [Heq | Hne].
  - unfold fill1. rewrite Heq, Hk.
    destruct (estimatedLocation e); [by left | right].
    by rewrite lookup_insert_eq.
  - left. by rewrite fill1_lookup_ne.
Qed.

Lemma fill_occupied its m k e :
  m !! k = Some e -> id (asset e) = k ->
  exists item, (item = e \/ item ∈ its) /\ id (asset item) = k
               /\ fill its m !! k = Some item.
Proof.
  revert m e. induction its as [|it its IH]; intros m e Hk Hid.
  - exists e. eauto.
  - unfold fill. simpl. fold (fill its (fill1 m it)).
    destruct (fill1_lookup_cases m it k e Hk) as [Hf | [Heq Hf]].
    + destruct (IH _ _ Hf Hid) as (x & Hx & Hxk & Hl).
      exists x. split; [| done].
      destruct Hx as [-> | Hx]; [by left | right; by right].
    + destruct (IH _ _ Hf Heq) as (x & Hx & Hxk & Hl).
      exists x. split; [| done].
      right. destruct Hx as [-> | Hx]; [by left | by right].
Qed.

(** What the first loop leaves at a key that was free: one of the items
    that carry the key. *)
Lemma fill_fresh its m k :
  m !! k = None -> k ∈ ids its ->
  exists item, item ∈ its /\ id (asset item) = k /\ fill its m !! k = Some item.
Proof.
  revert m. induction its as [|it its IH]; intros m Hk Hin.
  - by apply elem_of_nil in Hin.
  - unfold fill. simpl. fold (fill its (fill1 m it)).
    destruct (decide (id (asset it) = k)) as [Heq | Hne].
    + assert (Hf : fill1 m it !! k = Some it).
      { unfold fill1. rewrite Heq, Hk. apply lookup_insert_eq. }
      destruct (fill_occupied its _ k it Hf Heq) as (x & Hx & Hxk & Hl).
      exists x. split; [| done]. destruct Hx as [-> | Hx]; [by left | by right].
    + unfold ids in Hin. simpl in Hin. apply elem_of_cons in Hin as [? | Hin];
        [congruence |].
      destruct (IH (fill1 m it)) as (x & Hx & Hxk & Hl);
        [by rewrite fill1_lookup_ne | done |].
      exists x. split; [by right | done].
Qed.

Lemma merges_protect viss m k e p :
  m !! k = Some e -> estimatedLocation e = Some p ->
  Forall (fun its => k ∈ ids its) viss ->
  merges m viss !! k = Some e.
Proof.
  intros Hk Hp Hall. revert m Hk.
  induction Hall as [|its viss Hin _ IH]; intros m Hk; [done |].
  unfold merges. simpl. apply IH.
  rewrite merge_lookup. apply someId_elem_of in Hin. rewrite Hin.
  by eapply fill_protect.
Qed.

(** C1 (merge protects estimates).  Once the entry of an id [k] holds a
    location, (1) any sequence of runs of the merge watcher on item lists
    that all carry [k] leaves that entry as it is; (2) one run either keeps
    the entry unchanged or, exactly when no item carries [k], deletes it;
    (3) if [k] leaves the items and comes back, the entry it gets is one of
    the items that then carry [k]. *)
Theorem merge_protects_estimate m k e p :
  m !! k = Some e ->
  estimatedLocation e = Some p ->
  (forall viss, Forall (fun its => k ∈ ids its) viss ->
     merges m viss !! k = Some e)
  /\ (forall its,
        merge its m !! k = if bool_decide (k ∈ ids its) then Some e else None)
  /\ (forall its1 its2, k ∉ ids its1 -> k ∈ ids its2 ->
        merge its1 m !! k = None
        /\ exists item, item ∈ its2 /\ id (asset item) = k
             /\ merge its2 (merge its1 m) !! k = Some item).
Proof.
  intros Hk Hp. split; [| split].
  - intros viss Hall. by eapply merges_protect.
  - intros its. rewrite merge_lookup. case_bool_decide as Hin.
    + apply someId_elem_of in Hin. rewrite Hin. by eapply fill_protect.
    + destruct (someId its k) eqn:Hs; [| done].
      by apply someId_elem_of in Hs.
  - intros its1 its2 Hout Hin.
    assert (Hgone : merge its1 m !! k = None).
    { rewrite merge_lookup. destruct (someId its1 k) eqn:Hs; [| done].
      by apply someId_elem_of in Hs. }
    split; [done |].
    destruct (fill_fresh its2 _ k Hgone Hin) as (item & Hit & Hid & Hl).
    exists item. split; [done |]. split; [done |].
    rewrite merge_lookup. apply someId_elem_of in Hin. by rewrite Hin.
Qed.

(** C2 (pending map key invariant).  After a run of the merge watcher the
    keys of [updates] are exactly the ids of the visible items, whatever
    the map held before: every visible id has an entry, and no other key is
    left. *)
Theorem merge_keys st :
  keysInSync (flush st)
  /\ (forall its m, dom (merge its m) = list_to_set (ids its))
  /\ (forall its m k, k ∈ ids its -> is_Some (merge its m !! k))
  /\ (forall its m k, k ∉ ids its -> merge its m !! k = None).
Proof.
  split; [| split; [| split]].
  - unfold keysInSync. simpl. apply merge_dom.
  - apply merge_dom.
  - intros its m k Hin. apply elem_of_dom. rewrite merge_dom.
    by apply elem_of_list_to_set.
  - intros its m k Hout. apply not_elem_of_dom. rewrite merge_dom.
    by rewrite elem_of_list_to_set.
Qed.

(** ** The projection *)

(** C6 (default acceptance).  The projected item carries the asset, the
    point of the estimator's best estimate as its location (none when there
    is no best estimate) and the geometries of the estimator's segments.
    It is marked for saving exactly when the estimator gave a best
    estimate, the estimate's source is ["timelinePath"], and the original
    file name does not contain ["screenshot"] in whatever case.  When the
    estimator returns nothing, the item has no location, no geometry and is
    not marked. *)
Theorem project_confirmEdit tl (a : AssetResponseDto) :
  let r := estimateLocationAtTime tl (newDate (fileCreatedAt a)) in
  asset (project tl a) = a
  /\ estimatedLocation (project tl a) = point <$> (r ≫= bestEstimate)
  /\ geometry (project tl a)
     = omap segmentToGeometry (default [] (r ≫= segments))
  /\ (confirmEdit (project tl a) = true <->
        is_Some (r ≫= bestEstimate)
        /\ r ≫= estimateSource = Some "timelinePath"
        /\ ~ mentionsIgnoringCase "screenshot" (originalFileName a))
  /\ match r with
     | Some _ => True
     | None =>
         estimatedLocation (project tl a) = None
         /\ geometry (project tl a) = []
         /\ confirmEdit (project tl a) = false
     end.
Proof.
  intros r. do 3 (split; [reflexivity |]). split.
  - unfold project. fold r. simpl.
    rewrite !andb_true_iff, negb_true_iff, bool_decide_eq_true.
    rewrite <- (includes_mentions "screenshot") by reflexivity.
    rewrite not_true_iff_false.
    destruct (r ≫= bestEstimate) as [b|]; simpl.
    + split; [intros [[_ Hs] Hn]; eauto | intros (_ & Hs & Hn); eauto].
    + split; [intros [[? _] _]; done | intros [[b ?] _]; done].
  - unfold project. fold r. by destruct r.
Qed.

(** ** Invariants of the reachable states *)

Lemma project_confirmable tl (a : AssetResponseDto) :
  confirmEdit (project tl a) = true ->
  is_Some (estimatedLocation (project tl a)).
Proof.
  unfold project. simpl. rewrite !andb_true_iff. intros [[Hb _] _].
  destruct (estimateLocationAtTime tl (newDate (fileCreatedAt a)) ≫= bestEstimate);
    [by eexists | done].
Qed.

Lemma items_projected st item :
  item ∈ items st ->
  exists a, a ∈ accumulated st /\ item = project (timeline st) a.
Proof.
  unfold items, allAssets. intros Hin.
  apply list_elem_of_In, filter_In in Hin as [Hin _].
  apply in_map_iff in Hin as (a & <- & Ha).
  exists a. split; [by apply list_elem_of_In | done].
Qed.

Lemma items_confirmable st item :
  item ∈ items st -> confirmEdit item = true ->
  is_Some (estimatedLocation item).
Proof.
  intros Hin. apply items_projected in Hin as (a & _ & ->).
  apply project_confirmable.
Qed.

Lemma fill_lookup_origin its m k e :
  fill its m !! k = Some e -> m !! k = Some e \/ e ∈ its.
Proof.
  unfold fill. revert m. induction its as [|it its IH]; intros m Hl.
  - by left.
  - simpl in Hl. destruct (IH _ Hl) as [Hf | Hin]; [| right; by right].
    destruct (decide (id (asset it) = k)) as [Heq | Hne].
    + unfold fill1 in Hf. rewrite Heq in Hf.
      destruct (m !! k) as [e0|] eqn:Hk.
      * destruct (estimatedLocation e0); [left; congruence |].
        rewrite lookup_insert_eq in Hf. injection Hf as <-. right. by left.
      * rewrite lookup_insert_eq in Hf. injection Hf as <-. right. by left.
    + left. by rewrite fill1_lookup_ne in Hf.
Qed.

Lemma merge_lookup_origin its m k e :
  merge its m !! k = Some e -> m !! k = Some e \/ e ∈ its.
Proof.
  rewrite merge_lookup. destruct (someId its k); [| done].
  apply fill_lookup_origin.
Qed.

Lemma flush_confirmable st :
  confirmable (updates st) -> confirmable (updates (flush st)).
Proof.
  intros Hm k e Hl Hc. simpl in Hl.
  apply merge_lookup_origin in Hl as [Hl | Hin].
  - by eapply Hm.
  - by eapply items_confirmable.
Qed.

Lemma flush_keysInSync st : keysInSync (flush st).
Proof. unfold keysInSync. simpl. apply merge_dom. Qed.

Lemma confirmable_empty : confirmable (∅ : gmap string Item).
Proof. intros k e Hl. by rewrite lookup_empty in Hl. Qed.

Lemma setConfirmEdit_confirmable st k b :
  disableConfirm st k = false ->
  confirmable (updates st) -> confirmable (updates (setConfirmEdit k b st)).
Proof.
  intros Hen Hm j e Hl Hc. simpl in Hl. rewrite lookup_alter in Hl.
  case_decide as Hjk; [subst j | by eapply Hm].
  unfold disableConfirm in Hen.
  destruct (updates st !! k) as [e0|]; [| done].
  simpl in Hl. injection Hl as <-. simpl.
  apply orb_false_iff in Hen as [Hen _]. apply negb_false_iff in Hen.
  destruct (estimatedLocation e0); [by eexists | done].
Qed.

Lemma moveMarker_confirmable st k p :
  confirmable (updates st) -> confirmable (updates (moveMarker k p st)).
Proof.
  intros Hm j e Hl Hc. simpl in Hl. rewrite lookup_alter in Hl.
  case_decide as Hjk; [subst j | by eapply Hm].
  destruct (updates st !! k) as [e0|]; [| done].
  simpl in Hl. injection Hl as <-. simpl. by eexists.
Qed.

Lemma confirm_saved_updates hideRest updateAsset st vs :
  saveAll updateAsset st = Fulfilled vs ->
  updates (confirm hideRest updateAsset st).1 = ∅.
Proof. intros Hs. unfold confirm. by rewrite Hs. Qed.

Lemma confirm_failed_state hideRest updateAsset st (err : JsError) :
  saveAll updateAsset st = Rejected err ->
  confirm hideRest updateAsset st
  = (set_loading false st, [Alert errorMessage; ConsoleError err]).
Proof. intros Hs. unfold confirm. by rewrite Hs. Qed.

Lemma step_invariant st st' :
  step st st' ->
  confirmable (updates st) /\ keysInSync st ->
  confirmable (updates st') /\ keysInSync st'.
Proof.
  intros Hstep [Hc Hk].
  destruct Hstep as
    [sa st | sa st | p st | tl st | k b st Hen | k p st
    | hr ua st vs Hs | hr ua st err Hs | st];
    try (split; [by apply flush_confirmable | apply flush_keysInSync]).
  - split; [by apply setConfirmEdit_confirmable |].
    unfold keysInSync in *. simpl. by rewrite dom_alter_L.
  - split; [by apply moveMarker_confirmable |].
    unfold keysInSync in *. simpl. by rewrite dom_alter_L.
  - split; [| apply flush_keysInSync].
    apply flush_confirmable. erewrite confirm_saved_updates by done.
    apply confirmable_empty.
  - erewrite confirm_failed_state by done. by split.
Qed.

Lemma reachable_invariant st :
  reachable st -> confirmable (updates st) /\ keysInSync st.
Proof.
  induction 1 as [p tl seen | st st' _ IH Hstep].
  - split; [apply confirmable_empty |].
    unfold keysInSync. simpl. by rewrite dom_empty_L.
  - by eapply step_invariant.
Qed.

Lemma elem_of_values m item :
  item ∈ values m <-> exists k, m !! k = Some item.
Proof.
  unfold values. rewrite list_elem_of_fmap. split.
  - intros ([k x] & -> & Hin). exists k. by apply elem_of_map_to_list.
  - intros [k Hk]. exists (k, item). split; [done |].
    by apply elem_of_map_to_list.
Qed.

Lemma confirmedUpdates_located st item :
  confirmable (updates st) -> item ∈ confirmedUpdates st ->
  is_Some (estimatedLocation item).
Proof.
  intros Hm Hin. unfold confirmedUpdates in Hin.
  apply list_elem_of_In, filter_In in Hin as [Hin Hc].
  apply list_elem_of_In, elem_of_values in Hin as [k Hk]. by eapply Hm.
Qed.

Lemma sendUpdates_located updateAsset (batch : list Item) :
  (forall item, item ∈ batch -> is_Some (estimatedLocation item)) ->
  exists ps, sendUpdates updateAsset batch = Fulfilled ps
             /\ List.length ps = List.length batch.
Proof.
  induction batch as [|item rest IH]; intros Hall; simpl.
  - by exists [].
  - destruct (Hall item) as [p ->]; [by left |].
    destruct IH as (ps & -> & Hlen); [intros x Hx; apply Hall; by right |].
    eexists. split; [done |]. simpl. by rewrite Hlen.
Qed.

(** C9 (the commit never reads an absent location).  In every reachable
    state each entry of [updates] that is marked for saving has a location,
    so the callback that builds the [updateAsset] calls of [confirm] throws
    at none of the confirmed entries: every call is issued. *)
Theorem confirm_reads_no_absent_location st :
  reachable st ->
  confirmable (updates st)
  /\ (forall item, item ∈ confirmedUpdates st ->
        is_Some (estimatedLocation item))
  /\ (forall updateAsset, exists ps,
        sendUpdates updateAsset (confirmedUpdates st) = Fulfilled ps
        /\ List.length ps = List.length (confirmedUpdates st)).
Proof.
  intros Hr. apply reachable_invariant in Hr as [Hc _].
  split; [done |]. split.
  - intros item. by apply confirmedUpdates_located.
  - intros updateAsset. apply sendUpdates_located.
    intros item. by apply confirmedUpdates_located.
Qed.

(** ** The page after a commit *)

Lemma ceilDiv_spec a b :
  0 < b -> (ceilDiv a b - 1) * b < a <= ceilDiv a b * b.
Proof.
  intros Hb. unfold ceilDiv.
  pose proof (Z.div_mod (- a) b ltac:(lia)) as Hdm.
  pose proof (Z.mod_pos_bound (- a) b Hb) as Hm. nia.
Qed.

Lemma ceilDiv_nonneg a b : 0 < b -> 0 <= a -> 0 <= ceilDiv a b.
Proof. intros Hb Ha. pose proof (ceilDiv_spec a b Hb). nia. Qed.

Lemma size_list_to_set_le (l : list string) :
  (size (list_to_set l : gset string) <= List.length l)%nat.
Proof.
  unfold size, set_size. simpl.
  apply submseteq_length, NoDup_submseteq; [apply NoDup_elements |].
  intros x Hx. by apply elem_of_elements, elem_of_list_to_set in Hx.
Qed.

Lemma filter_length_bound {A} (f : A -> bool) (l : list A) :
  (List.length (List.filter f l) <= List.length l)%nat.
Proof. induction l as [|x l IH]; simpl; [lia |]. destruct (f x); simpl; lia. Qed.

Lemma confirmed_le_items st :
  keysInSync st ->
  (List.length (confirmedUpdates st) <= List.length (items st))%nat.
Proof.
  intros Hk. unfold confirmedUpdates.
  etrans; [apply filter_length_bound |].
  unfold values. rewrite length_fmap, length_map_to_list.
  rewrite <- (size_dom (D := gset string)), Hk.
  pose proof (size_list_to_set_le (ids (items st))) as Hle.
  assert (Hlen : List.length (ids (items st)) = List.length (items st))
    by apply length_map.
  lia.
Qed.

(** C5 (page after a commit).  When a commit has saved everything, with
    [d] the number of visible items minus the number of confirmed entries
    at that time and a positive page size, the page becomes the ceiling of
    [d / pageSize] (the integer [c] with [(c - 1) * pageSize < d <= c *
    pageSize]) raised to 1 when it is 0; it is at least 1, before and after
    the merge watcher has run. *)
Theorem confirm_page_recomputed st hideRest updateAsset vs :
  reachable st ->
  0 < pageSize (props st) ->
  saveAll updateAsset st = Fulfilled vs ->
  let d := Z.of_nat (List.length (items st))
           - Z.of_nat (List.length (confirmedUpdates st)) in
  let st' := (confirm hideRest updateAsset st).1 in
  exists c,
    (c - 1) * pageSize (props st) < d <= c * pageSize (props st)
    /\ page st' = Z.max 1 c
    /\ 1 <= page st'
    /\ page (flush st') = page st'.
Proof.
  intros Hr Hps Hs d st'. apply reachable_invariant in Hr as [_ Hk].
  pose proof (confirmed_le_items st Hk) as Hle.
  exists (ceilDiv d (pageSize (props st))).
  pose proof (ceilDiv_spec d _ Hps) as Hc.
  pose proof (ceilDiv_nonneg d _ Hps ltac:(unfold d; lia)) as Hn.
  assert (Hp : page st' = orOne (ceilDiv d (pageSize (props st)))).
  { unfold st', confirm. rewrite Hs. reflexivity. }
  change (page (flush st')) with (page st'). rewrite Hp. unfold orOne.
  split; [done |]. destruct (Z.eqb_spec (ceilDiv d (pageSize (props st))) 0);
    repeat split; lia.
Qed.

(** ** A failed commit *)

Lemma sendUpdates_cases updateAsset (batch : list Item) :
  (exists err, sendUpdates updateAsset batch = Rejected err)
  \/ (exists ps, sendUpdates updateAsset batch = Fulfilled ps
        /\ forall item p, item ∈ batch -> estimatedLocation item = Some p ->
             updateAsset {| upd_id := id (asset item);
                            latitude := lat p; longitude := lng p |} ∈ ps).
Proof.
  induction batch as [|x rest IH]; simpl.
  - right. exists []. split; [done |]. intros item p Hin. by apply elem_of_nil in Hin.
  - destruct (estimatedLocation x) as [q|] eqn:Hq; [| left; eauto].
    destruct IH as [[err ->] | (ps & -> & Hps)]; [left; eauto |].
    right. eexists. split; [done |]. intros item p Hin Hp.
    apply elem_of_cons in Hin as [-> | Hin].
    + rewrite Hq in Hp. injection Hp as <-. by left.
    + right. by eapply Hps.
Qed.

Lemma promiseAll_rejected (ps : list (Settled unit)) (err : JsError) :
  Rejected err ∈ ps -> exists err', promiseAll ps = Rejected err'.
Proof.
  induction ps as [|q ps IH]; intros Hin.
  - by apply elem_of_nil in Hin.
  - simpl. destruct q as [v | err0]; [| eauto].
    apply elem_of_cons in Hin as [? | Hin]; [done |].
    destruct (IH Hin) as [err' ->]. eauto.
Qed.

Lemma saveAll_rejected updateAsset st item p (err : JsError) :
  item ∈ confirmedUpdates st ->
  estimatedLocation item = Some p ->
  updateAsset {| upd_id := id (asset item);
                 latitude := lat p; longitude := lng p |} = Rejected err ->
  exists err', saveAll updateAsset st = Rejected err'.
Proof.
  intros Hin Hp Hrej. unfold saveAll.
  destruct (sendUpdates_cases updateAsset (confirmedUpdates st))
    as [[err' ->] | (ps & -> & Hps)]; [eauto |].
  apply (promiseAll_rejected ps err). rewrite <- Hrej. by eapply Hps.
Qed.

(** C3, as the code has it.  When the update of one confirmed entry is
    rejected, [confirm] takes its [catch] branch: it alerts the error
    message and logs the causing error, schedules no refetch, and returns
    normally, its promise fulfilled and no error handed to the caller;
    [updates], [alreadySeen], [page] and [result] (the accumulated assets
    and [hasNextPage]) are as they were when it was called, and [loading]
    is off. *)
Theorem confirm_failure_reported st hideRest updateAsset item p
  (err : JsError) :
  item ∈ confirmedUpdates st ->
  estimatedLocation item = Some p ->
  updateAsset {| upd_id := id (asset item);
                 latitude := lat p; longitude := lng p |} = Rejected err ->
  let st' := (confirm hideRest updateAsset st).1 in
  confirmResult hideRest updateAsset st = Fulfilled tt
  /\ (exists err',
        saveAll updateAsset st = Rejected err'
        /\ (confirm hideRest updateAsset st).2
           = [Alert errorMessage; ConsoleError err'])
  /\ updates st' = updates st
  /\ alreadySeen st' = alreadySeen st
  /\ page st' = page st
  /\ result st' = result st
  /\ accumulated st' = accumulated st
  /\ loading st' = false.
Proof.
  intros Hin Hp Hrej st'.
  destruct (saveAll_rejected updateAsset st item p err Hin Hp Hrej)
    as [err' Hs].
  split; [unfold confirmResult; by rewrite Hs |].
  unfold st'. rewrite (confirm_failed_state hideRest updateAsset st err' Hs).
  simpl. split; [by exists err' | done].
Qed.

(** ** A change of the search props *)

Lemma merge_nil m : merge [] m = ∅.
Proof. apply map_eq. intros k. by rewrite merge_lookup, lookup_empty. Qed.

Lemma execute_in_two_steps searchAssets st :
  executeEnd (searchAssets (request (executeStart st).2))
    (executeStart st).2 (executeStart st).1
  = execute searchAssets st.
Proof.
  unfold executeEnd, executeStart, execute, handler. simpl.
  by destruct (searchAssets (searchRequest st)).
Qed.

(** C7 (filter change).  When the search props change to [p], the watcher
    clears the result, sets the page to 1 and starts a fetch: it sends
    exactly one search, for [p] at page 1, with nothing accumulated before
    it, and the result is pending.  The merge watcher, which then sees no
    item, deletes every entry of [updates].  Whatever the store answers,
    the page stays 1, an answered search leaves exactly the returned page
    accumulated, and every entry [updates] holds afterwards is the
    projection of an asset of that new result; the state is the one the
    events [filterEvent] and [fetchEvent] give. *)
Theorem filter_change_refetches st (p : Props) :
  let st1 := flush (propsWatcher (set_props p st)).1 in
  let fresh :=
    {| request :=
         {| country := ""; withExif := true; isVisible := true;
            dto_tagIds := tagIds p; dto_isNotInAlbum := isNotInAlbum p;
            model := cameraModel p; dto_size := pageSize p; dto_page := 1 |};
       previousAssets := [] |} in
  props st1 = p
  /\ data (result st1) = None
  /\ accumulated st1 = []
  /\ page st1 = 1
  /\ updates st1 = ∅
  /\ status (result st1) = Pending
  /\ (propsWatcher (set_props p st)).2 = [fresh]
  /\ forall answer,
       let st2 := flush (executeEnd answer fresh st1) in
       page st2 = 1
       /\ props st2 = p
       /\ (forall r, answer = Fulfilled r ->
             accumulated st2 = page_items r
             /\ error (result st2) = None
             /\ status (result st2) = Success)
       /\ (forall err, answer = Rejected err ->
             error (result st2) = Some err)
       /\ (forall k e, updates st2 !! k = Some e ->
             exists a, a ∈ accumulated st2 /\ e = project (timeline st) a)
       /\ (forall searchAssets, searchAssets (request fresh) = answer ->
             st2 = fetchEvent searchAssets (filterEvent p st)).
Proof.
  intros st1 fresh.
  assert (Hu : updates st1 = ∅) by apply merge_nil.
  do 7 (split; [done |]).
  intros answer st2. do 2 (split; [done |]). split; [| split; [| split]].
  - intros r ->. done.
  - intros err ->. done.
  - intros k e Hl. simpl in Hl.
    apply merge_lookup_origin in Hl as [Hl | Hin].
    + change (updates st1 !! k = Some e) in Hl.
      by rewrite Hu, lookup_empty in Hl.
    + apply items_projected in Hin. exact Hin.
  - intros searchAssets Hsa.
    unfold st2, fetchEvent, execute, handler, executeEnd.
    change (searchRequest (filterEvent p st)) with (request fresh).
    rewrite Hsa.
    assert (Hst : set_updates ∅ (filterChanged (set_props p st))
                  = filterEvent p st).
    { unfold filterEvent, flush. by rewrite merge_nil. }
    assert (Hst1 : st1
                   = set_updates ∅
                       (set_result {| data := None; error := None;
                                      status := Pending |}
                          (filterChanged (set_props p st)))).
    { unfold st1, propsWatcher, flush. simpl. by rewrite merge_nil. }
    rewrite Hst1, <- Hst. by destruct answer.
Qed.

(** ** [clearHidden] *)

Lemma foldl_difference (l : list Item) (s : gset string) :
  foldl (fun s it => s ∖ {[ id (asset it) ]}) s l = s ∖ list_to_set (ids l).
Proof.
  revert s. induction l as [|it l IH]; intros s; simpl.
  - by rewrite difference_empty_L.
  - rewrite IH. apply set_eq. intros j.
    rewrite !elem_of_difference, elem_of_union, elem_of_singleton. tauto.
Qed.

(** C10 ([clearHidden]).  The ids [clearHidden] removes from [alreadySeen]
    are exactly those that are in it and belong to a projected asset; every
    other member stays, and [props], the timeline, [page], [result],
    [updates] and [loading] are not written. *)
Theorem clearHidden_frame st :
  let st' := clearHidden st in
  alreadySeen st' = alreadySeen st ∖ list_to_set (ids (allAssets st))
  /\ alreadySeen st ∖ alreadySeen st'
     = alreadySeen st ∩ list_to_set (ids (allAssets st))
  /\ (forall k, k ∈ alreadySeen st' <->
                k ∈ alreadySeen st /\ k ∉ ids (allAssets st))
  /\ props st' = props st
  /\ timeline st' = timeline st
  /\ page st' = page st
  /\ result st' = result st
  /\ updates st' = updates st
  /\ loading st' = loading st.
Proof.
  intros st'.
  assert (Hs : alreadySeen st'
               = alreadySeen st ∖ list_to_set (ids (allAssets st))).
  { unfold st', clearHidden. simpl. rewrite foldl_difference.
    apply set_eq. intros k. rewrite !elem_of_difference, !elem_of_list_to_set.
    unfold ids. rewrite !list_elem_of_fmap.
    split; intros [Hk Hn]; (split; [done |]); intros (it & -> & Hit);
      apply Hn; exists it; (split; [done |]).
    - apply list_elem_of_In, filter_In. split; [by apply list_elem_of_In |].
      by apply bool_decide_eq_true.
    - apply list_elem_of_In, filter_In in Hit as [Hit _].
      by apply list_elem_of_In. }
  split; [done |]. split.
  { rewrite Hs. apply set_eq. intros k.
    rewrite elem_of_intersection, !elem_of_difference.
    destruct (decide (k ∈ (list_to_set (ids (allAssets st)) : gset string)));
      tauto. }
  split; [| done].
  intros k. rewrite Hs, elem_of_difference, elem_of_list_to_set. done.
Qed.

(** ** Accumulation *)

Lemma searchRequest_ext st1 st2 :
  props st1 = props st2 -> page st1 = page st2 ->
  searchRequest st1 = searchRequest st2.
Proof. intros Hp Hq. unfold searchRequest. by rewrite Hp, Hq. Qed.

Lemma execute_fulfilled searchAssets st r :
  searchAssets (searchRequest st) = Fulfilled r ->
  accumulated (execute searchAssets st) = accumulated st ++ page_items r
  /\ error (result (execute searchAssets st)) = None.
Proof. intros Hr. unfold execute, handler. rewrite Hr. done. Qed.

Lemma execute_rejected searchAssets st (err : JsError) :
  searchAssets (searchRequest st) = Rejected err ->
  result (execute searchAssets st)
  = {| data := asyncDataOnError (data (result st));
       error := Some err; status := Error |}.
Proof. intros Hr. unfold execute, handler. rewrite Hr. done. Qed.

Lemma loadMore_iter_frame searchAssets st n :
  props (Nat.iter n (loadMore searchAssets) st) = props st
  /\ page (Nat.iter n (loadMore searchAssets) st) = page st + Z.of_nat n.
Proof.
  induction n as [|n [IHp IHq]]; simpl.
  - split; [done | lia].
  - split; [done |]. rewrite IHq. lia.
Qed.

Lemma loadMore_appends searchAssets st sn q :
  props sn = props st -> page sn + 1 = q ->
  succeedsAt searchAssets st q ->
  accumulated (loadMore searchAssets sn)
  = accumulated sn ++ pageAt searchAssets st q.
Proof.
  intros Hp Hq [r Hr]. unfold pageAt. rewrite Hr.
  rewrite (searchRequest_ext _ (set_page (page sn + 1) sn)) in Hr
    by (simpl; first [done | lia]).
  unfold loadMore. by destruct (execute_fulfilled _ _ _ Hr) as [-> _].
Qed.

Lemma concat_snoc {A} (ls : list (list A)) (l : list A) :
  List.concat (ls ++ [l]) = List.concat ls ++ l.
Proof. rewrite concat_app. simpl. by rewrite app_nil_r. Qed.

(** C4, as the code has it.  After a fetch at the current page followed by
    [n] "Load more items", all answered by the store, the accumulated list
    is the list held before followed by the returned pages, in fetch order,
    one after the other: nothing is dropped or deduplicated.  So an asset
    id is in the accumulated list at most once exactly when it is so in
    that concatenation. *)
Theorem accumulated_concatenates searchAssets st n :
  (forall i, (i <= n)%nat ->
     succeedsAt searchAssets st (page st + Z.of_nat i)) ->
  let st' := Nat.iter n (loadMore searchAssets) (execute searchAssets st) in
  let pages :=
    map (fun i => pageAt searchAssets st (page st + Z.of_nat i))
      (seq 0 (S n)) in
  accumulated st' = accumulated st ++ List.concat pages
  /\ page st' = page st + Z.of_nat n
  /\ (NoDup (assetIds (accumulated st')) <->
      NoDup (assetIds (accumulated st ++ List.concat pages))).
Proof.
  intros Hok st' pages.
  assert (Hacc : accumulated st' = accumulated st ++ List.concat pages).
  { unfold st', pages. clear st' pages. induction n as [|n IH].
    - destruct (Hok 0%nat) as [r Hr]; [lia |].
      change (Nat.iter 0 (loadMore searchAssets) (execute searchAssets st))
        with (execute searchAssets st).
      cbn [seq map List.concat]. rewrite app_nil_r.
      unfold pageAt. rewrite Hr.
      rewrite (searchRequest_ext _ st) in Hr by (simpl; first [done | lia]).
      by destruct (execute_fulfilled _ _ _ Hr) as [-> _].
    - change (Nat.iter (S n) (loadMore searchAssets) (execute searchAssets st))
        with (loadMore searchAssets
                (Nat.iter n (loadMore searchAssets)
                   (execute searchAssets st))).
      destruct (loadMore_iter_frame searchAssets (execute searchAssets st) n)
        as [Hp Hq].
      rewrite (loadMore_appends searchAssets st _ (page st + Z.of_nat (S n)));
        [| done | rewrite Hq; simpl; lia | apply Hok; lia].
      rewrite IH by (intros i Hi; apply Hok; lia).
      rewrite (seq_S (S n) 0), map_app.
      change (map ?f [?x]) with [f x]. rewrite concat_snoc.
      by rewrite app_assoc. }
  split; [done |]. split; [| by rewrite Hacc].
  unfold st'.
  destruct (loadMore_iter_frame searchAssets (execute searchAssets st) n)
    as [_ ->]. done.
Qed.

(** C8, as the code has it.  When the store rejects the search of a fetch,
    the error becomes the [error] of the result, the handler appends
    nothing ([data] becomes what [useAsyncData] leaves on a rejection, a
    function of the previous [data] alone), and [page], [updates] and
    [alreadySeen] stay as they were when the handler started.  For a fetch
    started by "Load more items" that page is the incremented one: the
    increment is kept. *)
Theorem fetch_failure_surfaces searchAssets st (err : JsError) :
  searchAssets (searchRequest st) = Rejected err ->
  let st' := execute searchAssets st in
  error (result st') = Some err
  /\ data (result st') = asyncDataOnError (data (result st))
  /\ page st' = page st
  /\ updates st' = updates st
  /\ alreadySeen st' = alreadySeen st
  /\ forall st0, st = set_page (page st0 + 1) st0 ->
       loadMore searchAssets st0 = st'
       /\ page (loadMore searchAssets st0) = page st0 + 1
       /\ data (result (loadMore searchAssets st0))
          = asyncDataOnError (data (result st0)).
Proof.
  intros Hr st'. unfold st'.
  pose proof (execute_rejected _ _ _ Hr) as He.
  rewrite He. simpl. do 5 (split; [done |]).
  intros st0 ->. unfold loadMore.
  change (asyncDataSettle _ (result st0))
    with (result (execute searchAssets (set_page (page st0 + 1) st0))).
  rewrite He. done.
Qed.

(** ** Further properties *)

Lemma fill1_pick1 m item k : fill1 m item !! k = pick1 k (m !! k) item.
Proof.
  unfold pick1. case_bool_decide as Hk.
  - unfold fill1, protected. rewrite Hk.
    destruct (m !! k) as [e|] eqn:He; [destruct (estimatedLocation e) |];
      simpl; by rewrite ?lookup_insert_eq.
  - by apply fill1_lookup_ne.
Qed.

Lemma fill_pick its m k : fill its m !! k = pick k (m !! k) its.
Proof.
  unfold fill, pick. revert m. induction its as [|it its IH]; intros m.
  - done.
  - simpl. by rewrite IH, fill1_pick1.
Qed.

Lemma pick_protected k o its : protected o = true -> pick k o its = o.
Proof.
  unfold pick. induction its as [|it its IH]; intros Hp; [done |].
  simpl. unfold pick1 at 2. rewrite Hp.
  case_bool_decide; by apply IH.
Qed.

Lemma pick_unprotected k o its :
  protected (pick k o its) = false ->
  protected o = false
  /\ forall it, it ∈ its -> id (asset it) = k -> estimatedLocation it = None.
Proof.
  unfold pick. revert o. induction its as [|it its IH]; intros o Hp.
  - split; [done |]. intros it Hin. by apply elem_of_nil in Hin.
  - simpl in Hp. destruct (IH _ Hp) as [H1 Hall].
    unfold pick1 in H1. case_bool_decide as Hk.
    + destruct (protected o) eqn:Ho; [congruence |].
      split; [done |]. intros x Hx Hxk.
      apply elem_of_cons in Hx as [-> | Hx]; [| by apply Hall].
      simpl in H1. by destruct (estimatedLocation it).
    + split; [done |]. intros x Hx Hxk.
      apply elem_of_cons in Hx as [-> | Hx]; [done | by apply Hall].
Qed.

Lemma pick_absent k o its :
  (forall it, it ∈ its -> id (asset it) <> k) -> pick k o its = o.
Proof.
  unfold pick. induction its as [|it its IH]; intros Hno; [done |].
  simpl. unfold pick1 at 2. rewrite bool_decide_eq_false_2.
  - apply IH. intros x Hx. apply Hno. by right.
  - apply Hno. by left.
Qed.

Lemma pick_independent k o1 o2 its :
  (forall it, it ∈ its -> id (asset it) = k -> estimatedLocation it = None) ->
  protected o1 = false -> protected o2 = false ->
  (exists it, it ∈ its /\ id (asset it) = k) ->
  pick k o1 its = pick k o2 its.
Proof.
  unfold pick. revert o1 o2.
  induction its as [|it its IH]; intros o1 o2 Hall H1 H2 [x [Hx Hxk]].
  - by apply elem_of_nil in Hx.
  - simpl. destruct (decide (id (asset it) = k)) as [Hk | Hk].
    + unfold pick1 at 2 4. by rewrite bool_decide_eq_true_2, H1, H2.
    + unfold pick1 at 2 4. rewrite bool_decide_eq_false_2 by done.
      apply IH; [intros y Hy; apply Hall; by right | done | done |].
      apply elem_of_cons in Hx as [-> | Hx]; [done | eauto].
Qed.

Lemma pick_idempotent k o its : pick k (pick k o its) its = pick k o its.
Proof.
  destruct (protected (pick k o its)) eqn:Hp; [by apply pick_protected |].
  destruct (pick_unprotected k o its Hp) as [Ho Hall].
  destruct (decide (Exists (fun it => id (asset it) = k) its)) as [Hex | Hno].
  - apply pick_independent; [done | done | done |].
    apply Exists_exists in Hex. exact Hex.
  - apply pick_absent. intros it Hin Hk. apply Hno, Exists_exists. eauto.
Qed.

Lemma merge_pick its m k :
  merge its m !! k = if someId its k then pick k (m !! k) its else None.
Proof. by rewrite merge_lookup, fill_pick. Qed.

Lemma merge_idempotent its m : merge its (merge its m) = merge its m.
Proof.
  apply map_eq. intros k. rewrite !merge_pick.
  destruct (someId its k); [apply pick_idempotent | done].
Qed.

(** A user edit that leaves a location on the entry it touches does not
    give the merge watcher anything to do. *)
Lemma merge_alter_settled its m k (f : Item -> Item) :
  merge its m = m ->
  (forall e, m !! k = Some e -> is_Some (estimatedLocation (f e))) ->
  merge its (alter f k m) = alter f k m.
Proof.
  intros Hm Hf. apply map_eq. intros j. rewrite merge_pick.
  assert (Hj : merge its m !! j = m !! j) by (by rewrite Hm).
  rewrite merge_pick in Hj.
  destruct (decide (k = j)) as [<- | Hne].
  - rewrite lookup_alter_eq. destruct (m !! k) as [e|] eqn:He; simpl.
    + destruct (someId its k); [| done].
      apply pick_protected. simpl.
      destruct (Hf e eq_refl) as [p ->]. done.
    + exact Hj.
  - by rewrite lookup_alter_ne.
Qed.

Lemma flush_settled st : flush (flush st) = flush st.
Proof.
  unfold flush at 1. change (items (flush st)) with (items st).
  change (updates (flush st)) with (merge (items st) (updates st)).
  by rewrite merge_idempotent.
Qed.

(** X1 (the merge watcher has nothing left to do).  In every reachable
    state a further run of the merge watcher changes nothing: [updates] is
    already the merge of the visible items into itself.  In particular the
    watcher is idempotent, and the edits made through the template never
    call for a merge. *)
Theorem watcher_settled st :
  reachable st -> flush st = st.
Proof.
  intros Hr. induction Hr as [p tl seen | st st' _ IH Hstep].
  - unfold flush. simpl. by rewrite merge_nil.
  - assert (Hm : merge (items st) (updates st) = updates st).
    { apply (f_equal updates) in IH. exact IH. }
    destruct Hstep as
      [sa st | sa st | p st | tl st | k b st Hen | k q st
      | hr ua st vs Hs | hr ua st err Hs | st];
      try apply flush_settled.
    + unfold flush, setConfirmEdit. simpl.
      rewrite merge_alter_settled; [done | done |].
      intros e He. simpl. unfold disableConfirm in Hen. rewrite He in Hen.
      apply orb_false_iff in Hen as [Hen _]. apply negb_false_iff in Hen.
      destruct (estimatedLocation e); [by eexists | done].
    + unfold flush, moveMarker. simpl.
      rewrite merge_alter_settled; [done | done |].
      intros e He. simpl. by eexists.
    + rewrite (confirm_failed_state hr ua st err Hs). simpl.
      unfold flush. simpl. change (items (set_loading false st)) with (items st).
      rewrite Hm. by destruct st.
Qed.

Lemma filter_partition_length {A} (f : A -> bool) (l : list A) :
  (List.length (List.filter f l)
   + List.length (List.filter (fun x => negb (f x)) l))%nat
  = List.length l.
Proof.
  induction l as [|x l IH]; simpl; [done |].
  destruct (f x); simpl; lia.
Qed.

(** X2 (hidden-count identity).  [alreadySeenCount] is the number of
    projected items whose id is in [alreadySeen], and together with the
    visible items they make up all projected items. *)
Theorem hidden_count_identity st :
  alreadySeenCount st = Z.of_nat (List.length (hiddenItems st))
  /\ alreadySeenCount st + Z.of_nat (List.length (items st))
     = Z.of_nat (List.length (allAssets st))
  /\ 0 <= alreadySeenCount st.
Proof.
  unfold alreadySeenCount, hiddenItems, items.
  pose proof (filter_partition_length
                (fun it => bool_decide (id (asset it) ∈ alreadySeen st))
                (allAssets st)) as Hlen.
  unfold visible. lia.
Qed.

Lemma hide_spec (its : list Item) (seen : gset string) :
  hide seen its = seen ∪ list_to_set (ids its).
Proof.
  unfold hide. revert seen. induction its as [|it its IH]; intros seen; simpl.
  - by rewrite union_empty_r_L.
  - rewrite IH. apply set_eq. intros k.
    rewrite !elem_of_union, elem_of_singleton. tauto.
Qed.

(** X3 (a successful commit).  When every update is accepted, [confirm]
    empties the result and [updates], announces the save and schedules one
    [execute()] 500 ms later; [alreadySeen] gains exactly the ids of the
    unconfirmed entries when [hideRest] is set and is unchanged otherwise. *)
Theorem confirm_success_resets st hideRest updateAsset vs :
  saveAll updateAsset st = Fulfilled vs ->
  let st' := (confirm hideRest updateAsset st).1 in
  accumulated st' = []
  /\ updates st' = ∅
  /\ alreadySeen st'
     = (if hideRest
        then alreadySeen st ∪ list_to_set (ids (unconfirmedUpdates st))
        else alreadySeen st)
  /\ loading st' = false
  /\ (confirm hideRest updateAsset st).2
     = [Alert savedMessage; SetTimeoutExecute 500].
Proof.
  intros Hs st'. unfold st', confirm. rewrite Hs. simpl.
  do 2 (split; [done |]). split; [| done].
  destruct hideRest; [apply hide_spec | done].
Qed.

(** X4 (the seen set only grows, except by [clearHidden]).  Every event
    other than [clearHidden] leaves each id of [alreadySeen] in it. *)
Theorem alreadySeen_grows st st' :
  step st st' ->
  st' <> clearHiddenEvent st ->
  alreadySeen st ⊆ alreadySeen st'.
Proof.
  intros Hstep Hne.
  destruct Hstep as
    [sa st | sa st | p st | tl st | k b st Hen | k q st
    | hr ua st vs Hs | hr ua st err Hs | st]; try done.
  - unfold confirm. rewrite Hs. simpl.
    destruct hr; [| done]. rewrite hide_spec. apply union_subseteq_l.
  - by rewrite (confirm_failed_state hr ua st err Hs).
Qed.

(** ** More invariants of the reachable states *)

Lemma pick_origin k o its e :
  pick k o its = Some e ->
  o = Some e \/ (e ∈ its /\ id (asset e) = k).
Proof.
  unfold pick. revert o. induction its as [|it its IH]; intros o Hp.
  - by left.
  - simpl in Hp. destruct (IH _ Hp) as [H1 | [Hin Hid]];
      [| right; split; [by right | done]].
    unfold pick1 in H1. case_bool_decide as Hk; [| by left].
    destruct (protected o); [by left |].
    injection H1 as <-. right. split; [by left | done].
Qed.

Lemma merge_keyed its m : keyed m -> keyed (merge its m).
Proof.
  intros Hm k e Hl. rewrite merge_pick in Hl.
  destruct (someId its k); [| done].
  apply pick_origin in Hl as [Hl | [_ Hid]]; [by apply Hm | done].
Qed.

Lemma alter_keyed m k (f : Item -> Item) :
  (forall e, asset (f e) = asset e) -> keyed m -> keyed (alter f k m).
Proof.
  intros Hf Hm j e Hl. rewrite lookup_alter in Hl.
  case_decide as Hjk; [subst j | by apply Hm].
  destruct (m !! k) as [e0|] eqn:He; [| done].
  simpl in Hl. injection Hl as <-. rewrite Hf. by apply Hm.
Qed.

Lemma keyed_empty : keyed (∅ : gmap string Item).
Proof. intros k e Hl. by rewrite lookup_empty in Hl. Qed.

Lemma reachable_keyed st : reachable st -> keyed (updates st).
Proof.
  induction 1 as [p tl seen | st st' _ IH Hstep]; [apply keyed_empty |].
  destruct Hstep as
    [sa st | sa st | p st | tl st | k b st Hen | k q st
    | hr ua st vs Hs | hr ua st err Hs | st];
    try (by apply merge_keyed).
  - by apply alter_keyed.
  - by apply alter_keyed.
  - apply merge_keyed. erewrite confirm_saved_updates by done.
    apply keyed_empty.
  - by rewrite (confirm_failed_state hr ua st err Hs).
Qed.

Lemma items_visible st item :
  item ∈ items st <->
  item ∈ allAssets st /\ id (asset item) ∉ alreadySeen st.
Proof.
  unfold items, visible. rewrite !list_elem_of_In, filter_In.
  by rewrite negb_true_iff, bool_decide_eq_false.
Qed.

Lemma ids_allAssets st : ids (allAssets st) = assetIds (accumulated st).
Proof.
  unfold ids, allAssets, assetIds. rewrite map_map. done.
Qed.

Lemma elem_of_ids its k :
  k ∈ ids its <-> exists item, item ∈ its /\ id (asset item) = k.
Proof.
  unfold ids. rewrite list_elem_of_fmap. split.
  - intros (it & -> & Hin). eauto.
  - intros (it & Hin & <-). eauto.
Qed.

Lemma keysInSync_lookup st k :
  keysInSync st -> (is_Some (updates st !! k) <-> k ∈ ids (items st)).
Proof.
  intros Hk. rewrite <- elem_of_dom, Hk. apply elem_of_list_to_set.
Qed.

(** X5 (an entry is stored under its own visible id).  In every reachable
    state each entry of [updates] sits under the id of its own asset, so
    that [updates[asset.id]] in the template is that very entry; its id is
    not in [alreadySeen] and belongs to an accumulated asset. *)
Theorem entries_keyed st k e :
  reachable st ->
  updates st !! k = Some e ->
  id (asset e) = k
  /\ updates st !! (id (asset e)) = Some e
  /\ (k ∉ alreadySeen st)
  /\ k ∈ assetIds (accumulated st).
Proof.
  intros Hr Hl.
  pose proof (reachable_keyed st Hr k e Hl) as Hid.
  destruct (reachable_invariant st Hr) as [_ Hk].
  assert (Hin : k ∈ ids (items st)) by (apply keysInSync_lookup; eauto).
  apply elem_of_ids in Hin as (it & Hit & <-).
  apply items_visible in Hit as [Hall Hseen].
  split; [done |]. split; [by rewrite Hid |]. split; [done |].
  rewrite <- ids_allAssets. apply elem_of_ids. eauto.
Qed.

(** X6 (the page moves only by one step or with a cleared result).  An
    event leaves [page] as it is, or adds one to it ("Load more items"), or
    leaves the component with no accumulated asset and no pending entry
    (a change of the search props, a saved commit). *)
Theorem page_moves_with_clear st st' :
  step st st' ->
  page st' = page st
  \/ page st' = page st + 1
  \/ (accumulated st' = [] /\ updates st' = ∅).
Proof.
  intros Hstep.
  destruct Hstep as
    [sa st | sa st | p st | tl st | k b st Hen | k q st
    | hr ua st vs Hs | hr ua st err Hs | st];
    try (by left).
  - right. by left.
  - right. right. split; [done | apply merge_nil].
  - right. right. unfold confirm. rewrite Hs. simpl.
    split; [done | apply merge_nil].
  - left. by rewrite (confirm_failed_state hr ua st err Hs).
Qed.

(** ** Fetching more *)

Lemma filter_app_list {A} (f : A -> bool) (l1 l2 : list A) :
  List.filter f (l1 ++ l2) = List.filter f l1 ++ List.filter f l2.
Proof.
  induction l1 as [|x l1 IH]; simpl; [done |].
  destruct (f x); simpl; by rewrite IH.
Qed.

Lemma execute_items searchAssets st r :
  searchAssets (searchRequest st) = Fulfilled r ->
  allAssets (execute searchAssets st)
  = allAssets st ++ map (project (timeline st)) (page_items r)
  /\ items (execute searchAssets st)
     = items st
       ++ List.filter (visible (alreadySeen st))
            (map (project (timeline st)) (page_items r)).
Proof.
  intros Hr.
  assert (Ha : allAssets (execute searchAssets st)
               = allAssets st ++ map (project (timeline st)) (page_items r)).
  { unfold allAssets.
    destruct (execute_fulfilled searchAssets st r Hr) as [-> _].
    by rewrite map_app. }
  split; [done |]. unfold items. rewrite Ha. apply filter_app_list.
Qed.

(** X7 (a fetch appends to what is shown).  When the store answers, the
    projected items are the previous ones followed by the projections of
    the returned page, and the visible items are the previous visible ones
    followed by those of the new projections whose id is not in
    [alreadySeen]: nothing already shown moves or disappears, and
    [hasNextPage] tells whether the store named a next page. *)
Theorem fetch_appends_items searchAssets st r :
  searchAssets (searchRequest st) = Fulfilled r ->
  let st' := execute searchAssets st in
  let fresh := map (project (timeline st)) (page_items r) in
  allAssets st' = allAssets st ++ fresh
  /\ items st' = items st ++ List.filter (visible (alreadySeen st)) fresh
  /\ (hasNextPage <$> data (result st')) = Some (isSome (nextPage r)).
Proof.
  intros Hr st' fresh.
  destruct (execute_items searchAssets st r Hr) as [Ha Hi].
  split; [done |]. split; [done |].
  unfold st', execute, handler. rewrite Hr. simpl.
  f_equal. destruct (nextPage r); [by apply bool_decide_eq_true |].
  apply bool_decide_eq_false. intros Hn. by apply Hn.
Qed.

(** X8 (a fetch keeps the pending entries).  From a state whose keys are
    the visible ids, a fetch the store answers, followed by the merge
    watcher, keeps every key, leaves every entry that has a location as it
    is, and gives an entry to every returned asset whose id is not in
    [alreadySeen]. *)
Theorem fetch_keeps_entries searchAssets st r :
  keysInSync st ->
  searchAssets (searchRequest st) = Fulfilled r ->
  let st' := fetchEvent searchAssets st in
  dom (updates st) ⊆ dom (updates st')
  /\ (forall k e p, updates st !! k = Some e ->
        estimatedLocation e = Some p -> updates st' !! k = Some e)
  /\ (forall k, k ∈ assetIds (page_items r) -> k ∉ alreadySeen st ->
        is_Some (updates st' !! k)).
Proof.
  intros Hk Hr st'.
  destruct (execute_items searchAssets st r Hr) as [_ Hi].
  assert (Hdom : dom (updates st')
                 = list_to_set (ids (items (execute searchAssets st))))
    by apply merge_dom.
  assert (Hsub : forall k, k ∈ ids (items st) ->
                   k ∈ ids (items (execute searchAssets st))).
  { intros k Hin. rewrite Hi. unfold ids. rewrite map_app.
    apply elem_of_app. by left. }
  split; [| split].
  - intros k Hin. rewrite Hdom. apply elem_of_list_to_set, Hsub.
    apply keysInSync_lookup; [done |]. by apply elem_of_dom.
  - intros k e p Hl Hp.
    change (updates st' !! k)
      with (merge (items (execute searchAssets st)) (updates st) !! k).
    rewrite merge_lookup.
    assert (Hin : k ∈ ids (items (execute searchAssets st))).
    { apply Hsub, keysInSync_lookup; eauto. }
    apply someId_elem_of in Hin. rewrite Hin. by eapply fill_protect.
  - intros k Hin Hseen. apply elem_of_dom. rewrite Hdom.
    apply elem_of_list_to_set. rewrite Hi. unfold ids. rewrite map_app.
    apply elem_of_app. right.
    unfold assetIds in Hin. apply list_elem_of_fmap in Hin as (a & -> & Ha).
    apply list_elem_of_fmap. exists (project (timeline st) a).
    split; [done |]. apply list_elem_of_In, filter_In. split.
    + apply in_map. by apply list_elem_of_In.
    + unfold visible. simpl. apply negb_true_iff. by apply bool_decide_eq_false.
Qed.

(** X9 (fetching the same page twice appends it twice).  [execute()] run
    twice with the same page and the same answer leaves the returned page
    twice in the accumulated list; unless that page is empty, some asset id
    is then listed twice. *)
Theorem refetch_duplicates searchAssets st r :
  searchAssets (searchRequest st) = Fulfilled r ->
  let st' := execute searchAssets (execute searchAssets st) in
  accumulated st' = accumulated st ++ page_items r ++ page_items r
  /\ page st' = page st
  /\ (page_items r <> [] -> ~ NoDup (assetIds (accumulated st'))).
Proof.
  intros Hr st'.
  assert (Hr' : searchAssets (searchRequest (execute searchAssets st))
                = Fulfilled r) by exact Hr.
  assert (Ha : accumulated st'
               = accumulated st ++ page_items r ++ page_items r).
  { unfold st'.
    destruct (execute_fulfilled _ _ _ Hr') as [-> _].
    destruct (execute_fulfilled _ _ _ Hr) as [-> _].
    by rewrite app_assoc. }
  split; [done |]. split; [done |].
  intros Hne Hnd. rewrite Ha in Hnd. unfold assetIds in Hnd.
  rewrite !map_app in Hnd. apply NoDup_app in Hnd as (_ & _ & Hnd).
  destruct (page_items r) as [|a l]; [done |].
  apply NoDup_app in Hnd as (_ & Hdis & _).
  apply (Hdis (id a)); simpl; by left.
Qed.

(** ** Hiding and showing again *)

Lemma clearHidden_alreadySeen st :
  alreadySeen (clearHidden st)
  = alreadySeen st ∖ list_to_set (ids (allAssets st)).
Proof.
  unfold clearHidden. simpl. rewrite foldl_difference.
  apply set_eq. intros k. rewrite !elem_of_difference, !elem_of_list_to_set.
  rewrite !elem_of_ids.
  split; intros [Hk Hn]; (split; [done |]); intros (it & Hit & Hid);
    apply Hn; exists it; (split; [| done]).
  - apply list_elem_of_In, filter_In. split; [by apply list_elem_of_In |].
    apply bool_decide_eq_true. by rewrite Hid.
  - apply list_elem_of_In, filter_In in Hit as [Hit _].
    by apply list_elem_of_In.
Qed.

Lemma filter_all {A} (f : A -> bool) (l : list A) :
  (forall x, x ∈ l -> f x = true) -> List.filter f l = l.
Proof.
  induction l as [|x l IH]; intros Hall; simpl; [done |].
  rewrite (Hall x) by (by left). f_equal. apply IH.
  intros y Hy. apply Hall. by right.
Qed.

Lemma clearHidden_items st : items (clearHidden st) = allAssets st.
Proof.
  unfold items. change (allAssets (clearHidden st)) with (allAssets st).
  apply filter_all. intros it Hit. unfold visible.
  apply negb_true_iff, bool_decide_eq_false.
  rewrite clearHidden_alreadySeen, elem_of_difference, elem_of_list_to_set.
  intros [_ Hn]. apply Hn, elem_of_ids. eauto.
Qed.

Lemma reachable_entry_visible st k :
  reachable st -> is_Some (updates st !! k) ->
  (k ∉ alreadySeen st) /\ k ∈ ids (allAssets st).
Proof.
  intros Hr Hl. destruct (reachable_invariant st Hr) as [_ Hk].
  apply (keysInSync_lookup st k Hk) in Hl.
  apply elem_of_ids in Hl as (it & Hit & <-).
  apply items_visible in Hit as [Hall Hseen].
  split; [done |]. apply elem_of_ids. eauto.
Qed.

(** X10 ("Show hidden items" shows every projected item).  After
    [clearHidden] and the merge watcher, every projected item is visible,
    [alreadySeenCount] is 0, and the keys of [updates] are the ids of all
    accumulated assets. *)
Theorem clearHidden_shows_all st :
  let st' := clearHiddenEvent st in
  allAssets st' = allAssets st
  /\ items st' = allAssets st
  /\ alreadySeenCount st' = 0
  /\ dom (updates st') = list_to_set (assetIds (accumulated st)).
Proof.
  intros st'.
  assert (Hi : items st' = allAssets st) by apply clearHidden_items.
  split; [done |]. split; [done |]. split.
  - unfold alreadySeenCount. rewrite Hi.
    change (allAssets st') with (allAssets st). lia.
  - rewrite <- ids_allAssets, <- clearHidden_items. apply merge_dom.
Qed.

(** X11 (a hidden asset that is shown again gets a fresh entry).  In a
    reachable state a projected asset whose id is in [alreadySeen] has no
    entry in [updates]; after [clearHidden] and the merge watcher it has
    one, which is a projected item of that id, while every entry that had
    a location is as before. *)
Theorem unhidden_get_entries st k :
  reachable st ->
  k ∈ alreadySeen st ->
  k ∈ assetIds (accumulated st) ->
  let st' := clearHiddenEvent st in
  updates st !! k = None
  /\ (exists item, item ∈ allAssets st /\ id (asset item) = k
        /\ updates st' !! k = Some item)
  /\ (forall j e p, updates st !! j = Some e ->
        estimatedLocation e = Some p -> updates st' !! j = Some e).
Proof.
  intros Hr Hseen Hacc st'.
  assert (Hnone : updates st !! k = None).
  { destruct (updates st !! k) as [e|] eqn:He; [| done].
    destruct (reachable_entry_visible st k Hr) as [Hn _]; [eauto | done]. }
  assert (Hup : forall j, updates st' !! j
                = merge (allAssets st) (updates st) !! j).
  { intros j. unfold st', clearHiddenEvent, flush. simpl.
    by rewrite clearHidden_items. }
  split; [done |]. split.
  - rewrite <- ids_allAssets in Hacc.
    destruct (fill_fresh (allAssets st) (updates st) k Hnone Hacc)
      as (item & Hit & Hid & Hl).
    exists item. split; [done |]. split; [done |].
    rewrite Hup, merge_lookup. apply someId_elem_of in Hacc.
    by rewrite Hacc.
  - intros j e p Hl Hp. rewrite Hup, merge_lookup.
    destruct (reachable_entry_visible st j Hr) as [_ Hin]; [eauto |].
    apply someId_elem_of in Hin. rewrite Hin. by eapply fill_protect.
Qed.

Lemma unconfirmed_lookup st item :
  item ∈ unconfirmedUpdates st <->
  exists k, updates st !! k = Some item /\ confirmEdit item = false.
Proof.
  unfold unconfirmedUpdates. rewrite list_elem_of_In, filter_In.
  rewrite <- list_elem_of_In, elem_of_values, negb_true_iff. split.
  - intros [[k Hk] Hc]. eauto.
  - intros (k & Hk & Hc). eauto.
Qed.

(** X12 ("Save changes and hide the rest" hides the unconfirmed entries).
    From a reachable state, after a saved commit with [hideRest], the id of
    a pending entry is in [alreadySeen] exactly when the entry was not
    confirmed. *)
Theorem hideRest_hides_unconfirmed st updateAsset vs k e :
  reachable st ->
  saveAll updateAsset st = Fulfilled vs ->
  updates st !! k = Some e ->
  k ∈ alreadySeen (confirm true updateAsset st).1 <-> confirmEdit e = false.
Proof.
  intros Hr Hs Hl.
  pose proof (reachable_keyed st Hr) as Hkeyed.
  destruct (reachable_entry_visible st k Hr) as [Hseen _]; [eauto |].
  unfold confirm. rewrite Hs. simpl. rewrite hide_spec.
  rewrite elem_of_union, elem_of_list_to_set, elem_of_ids. split.
  - intros [? | (it & Hit & Hid)]; [done |].
    apply unconfirmed_lookup in Hit as (j & Hj & Hc).
    rewrite (Hkeyed j it Hj) in Hid. subst j. congruence.
  - intros Hc. right. exists e. split; [| by apply Hkeyed].
    apply unconfirmed_lookup. eauto.
Qed.

(** X13 (what was hidden with the rest does not come back).  After a saved
    commit with [hideRest], whatever the next fetch returns, no visible
    item and no entry of [updates] carries the id of an entry that was
    pending and not confirmed. *)
Theorem hidden_rest_stays_hidden st updateAsset vs searchAssets item0 :
  saveAll updateAsset st = Fulfilled vs ->
  item0 ∈ unconfirmedUpdates st ->
  let st2 := fetchEvent searchAssets (flush (confirm true updateAsset st).1) in
  id (asset item0) ∈ alreadySeen st2
  /\ (forall item, item ∈ items st2 -> id (asset item) <> id (asset item0))
  /\ updates st2 !! (id (asset item0)) = None.
Proof.
  intros Hs Hin st2.
  assert (Hseen : id (asset item0) ∈ alreadySeen st2).
  { unfold st2, confirm. rewrite Hs. simpl. rewrite hide_spec.
    apply elem_of_union_r, elem_of_list_to_set, elem_of_ids. eauto. }
  assert (Hvis : forall item, item ∈ items st2 ->
                   id (asset item) <> id (asset item0)).
  { intros item Hit Heq. apply items_visible in Hit as [_ Hn].
    apply Hn. by rewrite Heq. }
  split; [done |]. split; [done |].
  apply not_elem_of_dom.
  change (dom (updates st2))
    with (dom (merge (items st2) (updates (execute searchAssets
            (flush (confirm true updateAsset st).1))))).
  rewrite merge_dom, elem_of_list_to_set, elem_of_ids.
  intros (it & Hit & Hid). by apply (Hvis it).
Qed.

(** ** The page after a commit, again *)

(** X14 (when the recomputed page is at least 1).  For a page size other
    than 0, [Math.ceil((total - confirmed) / pageSize) || 1] is at least 1
    exactly when the quotient is above -1: [|| 1] replaces a 0 and nothing
    else, so a negative page size with enough items left gives a page
    below 1. *)
Theorem recomputePage_at_least_one_iff (total confirmed psize : Z) :
  psize <> 0 ->
  1 <= recomputePage total confirmed psize <->
  (0 < psize /\ - psize < total - confirmed)
  \/ (psize < 0 /\ total - confirmed < - psize).
Proof.
  intros Hs. unfold recomputePage, orOne, ceilDiv.
  pose proof (Z.div_mod (- (total - confirmed)) psize Hs) as Hdm.
  destruct (Z.eqb_spec (- (- (total - confirmed) / psize)) 0) as [Hz | Hz].
  - split; [intros _ | lia].
    destruct (Z.lt_total 0 psize) as [Hp | [He | Hn]]; [left | lia | right].
    + pose proof (Z.mod_pos_bound (- (total - confirmed)) psize Hp). nia.
    + pose proof (Z.mod_neg_bound (- (total - confirmed)) psize Hn). nia.
  - destruct (Z.lt_total 0 psize) as [Hp | [He | Hn]]; [| lia |].
    + pose proof (Z.mod_pos_bound (- (total - confirmed)) psize Hp). nia.
    + pose proof (Z.mod_neg_bound (- (total - confirmed)) psize Hn). nia.
Qed.

(** X15 (when a commit resumes at the first page).  From a reachable state
    with a positive page size, a saved commit sets the page to 1 exactly
    when the visible items that were not confirmed fit in one page. *)
Theorem confirm_resumes_at_first_page st hideRest updateAsset vs :
  reachable st ->
  0 < pageSize (props st) ->
  saveAll updateAsset st = Fulfilled vs ->
  page (confirm hideRest updateAsset st).1 = 1 <->
  Z.of_nat (List.length (items st))
  - Z.of_nat (List.length (confirmedUpdates st)) <= pageSize (props st).
Proof.
  intros Hr Hps Hs. apply reachable_invariant in Hr as [_ Hk].
  pose proof (confirmed_le_items st Hk) as Hle.
  unfold confirm. rewrite Hs. simpl. unfold recomputePage, orOne.
  set (d := Z.of_nat (List.length (items st))
            - Z.of_nat (List.length (confirmedUpdates st))) in *.
  pose proof (ceilDiv_spec d _ Hps) as Hc.
  pose proof (ceilDiv_nonneg d _ Hps ltac:(unfold d; lia)) as Hn.
  destruct (Z.eqb_spec (ceilDiv d (pageSize (props st))) 0); nia.
Qed.

(** ** What the template shows *)

(** X16 ("No images found" is shown exactly when no article is).  In
    every reachable state the list of visible items is empty exactly when
    [updates] has no entry. *)
Theorem no_images_iff_no_entries st :
  reachable st ->
  noImagesFound st = true <-> updates st = ∅.
Proof.
  intros Hr. apply reachable_invariant in Hr as [_ Hk].
  unfold noImagesFound. rewrite Z.eqb_eq. split.
  - intros Hlen. destruct (items st) as [|it its] eqn:Hi; [| simpl in Hlen; lia].
    apply dom_empty_iff_L. rewrite Hk, Hi. done.
  - intros Hu. destruct (items st) as [|it its] eqn:Hi; [done |].
    exfalso. assert (Hin : id (asset it) ∈ dom (updates st)).
    { rewrite Hk, Hi. apply elem_of_list_to_set. by left. }
    rewrite Hu, dom_empty_L in Hin. by apply not_elem_of_empty in Hin.
Qed.


(** X18 (when "Load more items" is offered).  After a fetch the store
    answered the button is disabled exactly when the store named no next
    page or [loading] is set; after [clear()] and after a saved commit it
    is disabled until the next fetch is answered. *)
Theorem loadMore_offered_by_next_page searchAssets st r :
  searchAssets (searchRequest st) = Fulfilled r ->
  loadMoreDisabled (fetchEvent searchAssets st)
  = (negb (isSome (nextPage r)) || loading st)%bool
  /\ loadMoreDisabled (clear st) = true
  /\ (forall hideRest updateAsset vs,
        saveAll updateAsset st = Fulfilled vs ->
        loadMoreDisabled (flush (confirm hideRest updateAsset st).1) = true).
Proof.
  intros Hr. split; [| split].
  - unfold loadMoreDisabled, fetchEvent, execute, handler. rewrite Hr. simpl.
    destruct (nextPage r) as [n|].
    + by rewrite bool_decide_eq_true_2.
    + rewrite bool_decide_eq_false_2; [done |]. intros Hn. by apply Hn.
  - done.
  - intros hr ua vs Hs. unfold confirm. rewrite Hs. done.
Qed.

(** ** The requests of a commit *)

Lemma sendUpdates_sentRequests updateAsset (batch : list Item) ps :
  sendUpdates updateAsset batch = Fulfilled ps ->
  ps = map updateAsset (sentRequests batch)
  /\ List.length (sentRequests batch) = List.length batch.
Proof.
  revert ps. induction batch as [|item rest IH]; intros ps Hs; simpl in *.
  - by injection Hs as <-.
  - destruct (estimatedLocation item) as [p|]; [| done].
    destruct (sendUpdates updateAsset rest) as [qs|]; [| done].
    injection Hs as <-. destruct (IH qs eq_refl) as [-> Hlen].
    simpl. by rewrite Hlen.
Qed.

Lemma sentRequests_located (batch : list Item) (q : UpdateAssetDto) :
  (forall item, item ∈ batch -> is_Some (estimatedLocation item)) ->
  q ∈ sentRequests batch <->
  exists item p, item ∈ batch /\ estimatedLocation item = Some p
    /\ q = {| upd_id := id (asset item);
              latitude := lat p; longitude := lng p |}.
Proof.
  induction batch as [|x rest IH]; intros Hall; simpl.
  - split; [intros Hin; by apply elem_of_nil in Hin |].
    intros (item & p & Hin & _). by apply elem_of_nil in Hin.
  - destruct (Hall x) as [px Hpx]; [by left |]. rewrite Hpx.
    rewrite elem_of_cons, IH by (intros y Hy; apply Hall; by right).
    split.
    + intros [-> | (item & p & Hin & Hp & ->)].
      * exists x, px. split; [by left | done].
      * exists item, p. split; [by right | done].
    + intros (item & p & Hin & Hp & ->).
      apply elem_of_cons in Hin as [-> | Hin].
      * left. rewrite Hpx in Hp. by injection Hp as <-.
      * right. eauto.
Qed.

Lemma elem_of_confirmedUpdates st item :
  item ∈ confirmedUpdates st <->
  exists k, updates st !! k = Some item /\ confirmEdit item = true.
Proof.
  unfold confirmedUpdates. rewrite list_elem_of_In, filter_In.
  rewrite <- list_elem_of_In, elem_of_values. split.
  - intros [[k Hk] Hc]. eauto.
  - intros (k & Hk & Hc). eauto.
Qed.

(** X19 (a commit sends the confirmed entries and nothing else).  In a
    reachable state the [updateAsset] calls of [confirm] are, one per
    confirmed entry, the entry's key with the entry's location: no call is
    made for an entry that is not confirmed or for an id that has no
    entry; and the promises handed to [Promise.all] are those calls. *)
Theorem confirm_sends_exactly_confirmed st (q : UpdateAssetDto) :
  reachable st ->
  (q ∈ sentRequests (confirmedUpdates st) <->
     exists k e p, updates st !! k = Some e /\ confirmEdit e = true
       /\ estimatedLocation e = Some p
       /\ q = {| upd_id := k; latitude := lat p; longitude := lng p |})
  /\ List.length (sentRequests (confirmedUpdates st))
     = List.length (confirmedUpdates st)
  /\ (forall updateAsset,
        sendUpdates updateAsset (confirmedUpdates st)
        = Fulfilled (map updateAsset (sentRequests (confirmedUpdates st)))).
Proof.
  intros Hr.
  pose proof (reachable_keyed st Hr) as Hkeyed.
  destruct (reachable_invariant st Hr) as [Hc _].
  assert (Hloc : forall item, item ∈ confirmedUpdates st ->
                   is_Some (estimatedLocation item))
    by (intros item; by apply confirmedUpdates_located).
  assert (Hsend : forall updateAsset,
            sendUpdates updateAsset (confirmedUpdates st)
            = Fulfilled (map updateAsset (sentRequests (confirmedUpdates st)))
            /\ List.length (sentRequests (confirmedUpdates st))
               = List.length (confirmedUpdates st)).
  { intros ua. destruct (sendUpdates_located ua _ Hloc) as (ps & Hps & _).
    destruct (sendUpdates_sentRequests ua _ ps Hps) as [-> Hlen].
    by rewrite Hps. }
  split; [| split].
  - rewrite (sentRequests_located _ q Hloc). split.
    + intros (item & p & Hin & Hp & ->).
      apply elem_of_confirmedUpdates in Hin as (k & Hk & Hce).
      exists k, item, p. by rewrite (Hkeyed k item Hk).
    + intros (k & e & p & Hk & Hce & Hp & ->).
      exists e, p. split; [apply elem_of_confirmedUpdates; eauto |].
      by rewrite (Hkeyed k e Hk).
  - exact (proj2 (Hsend (fun _ => Fulfilled tt))).
  - intros ua. exact (proj1 (Hsend ua)).
Qed.

(** X20 (a moved marker is what the next commit saves).  In a reachable
    state, moving the marker of the entry under [k] to [p] leaves that
    entry confirmed with location [p] and its asset and geometry as
    before, enables the save buttons unless [loading] is set, and the next
    commit sends [p] for [k]. *)
Theorem moved_marker_is_saved st k e (p : LatLng) :
  reachable st ->
  updates st !! k = Some e ->
  let st' := moveMarker k p st in
  updates st' !! k
  = Some {| asset := asset e; estimatedLocation := Some p;
            geometry := geometry e; confirmEdit := true |}
  /\ dom (updates st') = dom (updates st)
  /\ saveDisabled st' = loading st
  /\ {| upd_id := k; latitude := lat p; longitude := lng p |}
     ∈ sentRequests (confirmedUpdates st').
Proof.
  intros Hr Hl st'.
  set (e' := {| asset := asset e; estimatedLocation := Some p;
                geometry := geometry e; confirmEdit := true |}).
  assert (Hl' : updates st' !! k = Some e').
  { unfold st', moveMarker. simpl. by rewrite lookup_alter_eq, Hl. }
  assert (Hin : e' ∈ confirmedUpdates st')
    by (apply elem_of_confirmedUpdates; eauto).
  assert (Hr' : reachable st')
    by (eapply reachable_step; [done | apply step_moveMarker]).
  destruct (reachable_invariant st' Hr') as [Hc _].
  split; [done |]. split; [apply dom_alter_L |]. split.
  - unfold saveDisabled. change (loading st') with (loading st).
    destruct (confirmedUpdates st') as [|x l]; [by apply elem_of_nil in Hin |].
    done.
  - apply sentRequests_located.
    + intros item. by apply confirmedUpdates_located.
    + exists e', p. split; [done |]. split; [done |].
      simpl. by rewrite (reachable_keyed st Hr k e Hl).
Qed.

(** ** The first merge *)

Lemma pick_unique k o its item :
  NoDup (ids its) -> item ∈ its -> id (asset item) = k ->
  protected o = false ->
  pick k o its = Some item.
Proof.
  unfold pick. revert o. induction its as [|it its IH]; intros o Hnd Hin Hk Ho.
  - by apply elem_of_nil in Hin.
  - unfold ids in Hnd. simpl in Hnd. apply NoDup_cons in Hnd as [Hfresh Hnd].
    simpl. apply elem_of_cons in Hin as [-> | Hin].
    + unfold pick1 at 2. rewrite bool_decide_eq_true_2, Ho by done.
      apply pick_absent. intros x Hx Hxk. apply Hfresh.
      rewrite Hk, <- Hxk. apply elem_of_ids. eauto.
    + unfold pick1 at 2. rewrite bool_decide_eq_false_2.
      * by apply IH.
      * intros Heq. apply Hfresh. rewrite Heq, <- Hk.
        apply elem_of_ids. eauto.
Qed.

(** X21 (the first merge keys the items by id).  When the visible items
    have distinct ids, merging them into an empty [updates] stores each
    item under its own id, and the map has as many entries as there are
    items. *)
Theorem merge_into_empty its :
  NoDup (ids its) ->
  (forall item, item ∈ its -> merge its ∅ !! (id (asset item)) = Some item)
  /\ size (merge its ∅) = List.length its.
Proof.
  intros Hnd. split.
  - intros item Hin. rewrite merge_pick, lookup_empty.
    assert (Hs : someId its (id (asset item)) = true)
      by (apply someId_elem_of, elem_of_ids; eauto).
    rewrite Hs. by apply pick_unique.
  - rewrite <- (size_dom (D := gset string)), merge_dom.
    rewrite size_list_to_set by done. unfold ids. apply length_map.
Qed.

(** ** More on the merge and on the confirm toggle *)

Lemma pick_refreshed k o its :
  protected o = false -> k ∈ ids its ->
  exists item, item ∈ its /\ id (asset item) = k /\ pick k o its = Some item.
Proof.
  unfold pick. revert o. induction its as [|it its IH]; intros o Ho Hin.
  - by apply elem_of_nil in Hin.
  - simpl. destruct (decide (id (asset it) = k)) as [Hk | Hk].
    + unfold pick1 at 2. rewrite bool_decide_eq_true_2, Ho by done.
      destruct (foldl (pick1 k) (Some it) its) as [x|] eqn:Hx.
      * destruct (pick_origin k (Some it) its x Hx) as [Heq | [Hxin Hxk]].
        -- injection Heq as <-. exists it. split; [by left | done].
        -- exists x. split; [by right | done].
      * exfalso. clear -Hx. revert Hx. generalize it.
        induction its as [|y its IH2]; intros z Hx; [done |].
        simpl in Hx. unfold pick1 at 2 in Hx.
        destruct (bool_decide (id (asset y) = k));
          [destruct (protected (Some z)) |]; eauto.
    + unfold pick1 at 2. rewrite bool_decide_eq_false_2 by done.
      unfold ids in Hin. simpl in Hin.
      apply elem_of_cons in Hin as [? | Hin]; [congruence |].
      destruct (IH o Ho Hin) as (x & Hxin & Hxk & Hx).
      exists x. split; [by right | done].
Qed.

(** X22 (an entry without a location is refreshed).  When the entry under
    [k] has no location and some visible item carries [k], the merge
    watcher replaces the entry by one of the visible items that carry
    [k]. *)
Theorem merge_refreshes_unlocated its m k e :
  m !! k = Some e ->
  estimatedLocation e = None ->
  k ∈ ids its ->
  exists item, item ∈ its /\ id (asset item) = k
    /\ merge its m !! k = Some item.
Proof.
  intros Hl Hn Hin.
  destruct (pick_refreshed k (m !! k) its) as (item & Hit & Hid & Hp);
    [by rewrite Hl; simpl; rewrite Hn | done |].
  exists item. split; [done |]. split; [done |].
  rewrite merge_pick. apply someId_elem_of in Hin. by rewrite Hin.
Qed.

(** X23 (unconfirming and confirming again).  In a reachable state,
    switching a confirmed entry off makes the next commit send no call for
    its id, and switching it on again gives back the state as it was: the
    location is kept while the entry is off. *)
Theorem unconfirm_round_trip st k e :
  reachable st ->
  updates st !! k = Some e ->
  confirmEdit e = true ->
  let st1 := setConfirmEdit k false st in
  (forall q, q ∈ sentRequests (confirmedUpdates st1) -> upd_id q <> k)
  /\ estimatedLocation <$> (updates st1 !! k) = Some (estimatedLocation e)
  /\ setConfirmEdit k true st1 = st.
Proof.
  intros Hr Hl Hc st1.
  pose proof (reachable_keyed st Hr) as Hkeyed.
  destruct (reachable_invariant st Hr) as [Hconf _].
  assert (Hl1 : forall j x, updates st1 !! j = Some x ->
                  confirmEdit x = true -> j <> k /\ updates st !! j = Some x).
  { intros j x Hj Hx. unfold st1, setConfirmEdit in Hj. simpl in Hj.
    rewrite lookup_alter in Hj. case_decide as Hjk.
    - subst j. rewrite Hl in Hj. simpl in Hj. injection Hj as <-. done.
    - done. }
  split; [| split].
  - intros q Hq. apply sentRequests_located in Hq.
    + destruct Hq as (item & p & Hin & _ & ->). simpl.
      apply elem_of_confirmedUpdates in Hin as (j & Hj & Hx).
      destruct (Hl1 j item Hj Hx) as [Hne Hj0].
      by rewrite (Hkeyed j item Hj0).
    + intros item Hin.
      apply elem_of_confirmedUpdates in Hin as (j & Hj & Hx).
      destruct (Hl1 j item Hj Hx) as [_ Hj0]. by eapply Hconf.
  - unfold st1, setConfirmEdit. simpl. by rewrite lookup_alter_eq, Hl.
  - unfold st1, setConfirmEdit. simpl.
    assert (Hm : alter
                   (fun x => {| asset := asset x;
                                estimatedLocation := estimatedLocation x;
                                geometry := geometry x; confirmEdit := true |})
                   k
                   (alter
                      (fun x => {| asset := asset x;
                                   estimatedLocation := estimatedLocation x;
                                   geometry := geometry x;
                                   confirmEdit := false |})
                      k (updates st))
                 = updates st).
    { apply map_eq. intros j. destruct (decide (k = j)) as [<- | Hne].
      - rewrite !lookup_alter_eq, Hl. simpl. f_equal.
        destruct e. simpl in *. by subst.
      - by rewrite !lookup_alter_ne. }
    unfold set_updates. simpl. rewrite Hm. by destruct st.
Qed.

End Properties.

(** * Closed instances *)

#[local] Existing Instance demoExt.

(** ** The scenarios of the specification *)

Example scenario_two_fetches :
  ids (items demoLoaded) = ["A"; "B"; "C"]
  /\ confirmEdit <$> (updates demoLoaded !! "A") = Some true
  /\ confirmEdit <$> (updates demoLoaded !! "B") = Some false
  /\ estimatedLocation <$> (updates demoLoaded !! "B") = Some None
  /\ confirmEdit <$> (updates demoLoaded !! "C") = Some true
  /\ List.length (confirmedUpdates demoLoaded) = 2%nat.
Proof. vm_compute. repeat split. Qed.

Example scenario_commit_hide_rest :
  let st' := flush (confirm true acceptAll demoLoaded).1 in
  page st' = 1
  /\ bool_decide ("B" ∈ alreadySeen st') = true
  /\ bool_decide ("A" ∈ alreadySeen st') = false
  /\ updates st' = ∅
  /\ accumulated st' = [].
Proof. vm_compute. repeat split. Qed.

Example scenario_commit_fails :
  confirm false rejectA demoLoaded
  = (demoLoaded,
     [Alert errorMessage; ConsoleError (StoreError "update failed")]).
Proof. vm_compute. reflexivity. Qed.

Example scenario_screenshot :
  confirmEdit
    (project (Ext := demoExt) tt
       {| id := "S"; fileCreatedAt := "10";
          originalFileName := "ScreenShot_2024.png" |}) = false.
Proof. vm_compute. reflexivity. Qed.

Example scenario_ignoring_case :
  equalIgnoringCase "ScReEnShOt" "screenshot"
  /\ ~ equalIgnoringCase "screenshut" "screenshot"
  /\ mentionsIgnoringCase "screenshot" "IMG SCREENSHOT 1.png".
Proof.
  split; [| split].
  - by apply toLowerCase_equalIgnoringCase.
  - intros H. by apply toLowerCase_equalIgnoringCase in H.
  - exists "IMG ", "SCREENSHOT", " 1.png". split; [reflexivity |].
    by apply toLowerCase_equalIgnoringCase.
Qed.

Example scenario_props_change :
  (propsWatcher (set_props demoProps demoLoaded)).2
  = [{| request := searchRequest demoInitial; previousAssets := [] |}]
  /\ loadMoreDisabled (propsWatcher (set_props demoProps demoLoaded)).1 = true.
Proof. vm_compute. split; reflexivity. Qed.

(** With a [useAsyncData] that resets [data] on a rejection, a failed
    "Load more items" empties the accumulated list. *)
Example resetting_failure_empties :
  accumulated
    (loadMore (Ext := resettingExt) failingStore
       (execute (Ext := resettingExt) demoStore
          (initial (Ext := resettingExt) demoProps tt ∅))) = [].
Proof. vm_compute. reflexivity. Qed.

(** ** Instances of the theorems *)

Lemma demoStore_answers (q : MetadataSearchDto) :
  exists r, demoStore q = Fulfilled r.
Proof. unfold demoStore. repeat case_match; eauto. Qed.

Lemma demoLoaded_reachable : reachable demoLoaded.
Proof.
  unfold demoLoaded, demoInitial.
  eapply reachable_step;
    [eapply reachable_step; [apply reachable_initial | apply step_fetch]
    | apply step_loadMore].
Qed.

Lemma merge_protects_estimate_witness :
  ({[ "A" := itemA ]} : gmap string Item) !! "A" = Some itemA
  /\ estimatedLocation itemA = Some pointA
  /\ merges {[ "A" := itemA ]} [[itemB; itemA]; [itemA]] !! "A" = Some itemA.
Proof.
  assert (H1 : ({[ "A" := itemA ]} : gmap string Item) !! "A" = Some itemA)
    by (vm_compute; reflexivity).
  assert (H2 : estimatedLocation itemA = Some pointA) by reflexivity.
  split; [exact H1 |]. split; [exact H2 |].
  destruct (merge_protects_estimate {[ "A" := itemA ]} "A" itemA pointA H1 H2)
    as [Hkeep _].
  apply Hkeep.
  constructor; [| constructor; [| constructor]];
    apply list_elem_of_In; vm_compute; auto.
Defined.

Lemma confirm_failure_reported_witness :
  itemA ∈ confirmedUpdates demoLoaded
  /\ estimatedLocation itemA = Some pointA
  /\ rejectA {| upd_id := id (asset itemA);
                latitude := lat pointA; longitude := lng pointA |}
     = Rejected (StoreError "update failed")
  /\ confirmResult false rejectA demoLoaded = Fulfilled tt
  /\ updates (confirm false rejectA demoLoaded).1 = updates demoLoaded
  /\ alreadySeen (confirm false rejectA demoLoaded).1 = alreadySeen demoLoaded
  /\ page (confirm false rejectA demoLoaded).1 = page demoLoaded.
Proof.
  assert (H1 : itemA ∈ confirmedUpdates demoLoaded)
    by (apply list_elem_of_In; vm_compute; auto).
  assert (H2 : estimatedLocation itemA = Some pointA) by reflexivity.
  assert (H3 : rejectA {| upd_id := id (asset itemA);
                          latitude := lat pointA; longitude := lng pointA |}
               = Rejected (StoreError "update failed")) by reflexivity.
  split; [exact H1 |]. split; [exact H2 |]. split; [exact H3 |].
  destruct (confirm_failure_reported demoLoaded false rejectA itemA pointA
              (StoreError "update failed") H1 H2 H3)
    as (Hr & _ & Hu & Hs & Hp & _).
  split; [exact Hr |]. split; [exact Hu |]. split; [exact Hs | exact Hp].
Defined.

Lemma confirm_page_recomputed_witness :
  reachable demoLoaded
  /\ 0 < pageSize (props demoLoaded)
  /\ saveAll acceptAll demoLoaded = Fulfilled [tt; tt]
  /\ exists c,
       (c - 1) * 2 < 3 - 2 <= c * 2
       /\ page (confirm true acceptAll demoLoaded).1 = Z.max 1 c.
Proof.
  assert (H1 : reachable demoLoaded) by apply demoLoaded_reachable.
  assert (H2 : 0 < pageSize (props demoLoaded)) by (vm_compute; reflexivity).
  assert (H3 : saveAll acceptAll demoLoaded = Fulfilled [tt; tt])
    by (vm_compute; reflexivity).
  split; [exact H1 |]. split; [exact H2 |]. split; [exact H3 |].
  destruct (confirm_page_recomputed demoLoaded true acceptAll [tt; tt] H1 H2 H3)
    as (c & Hc & Hp & _).
  exists c. split; [exact Hc | exact Hp].
Defined.

Lemma confirm_reads_no_absent_location_witness :
  reachable demoLoaded
  /\ exists ps, sendUpdates rejectA (confirmedUpdates demoLoaded) = Fulfilled ps.
Proof.
  assert (H1 : reachable demoLoaded) by apply demoLoaded_reachable.
  split; [exact H1 |].
  destruct (confirm_reads_no_absent_location demoLoaded H1) as (_ & _ & Hs).
  destruct (Hs rejectA) as (ps & Hps & _). by exists ps.
Defined.

Lemma accumulated_concatenates_witness :
  (forall i, (i <= 1)%nat -> succeedsAt demoStore demoInitial (1 + Z.of_nat i))
  /\ accumulated (loadMore demoStore (execute demoStore demoInitial))
     = [assetA; assetB; assetC].
Proof.
  assert (H1 : forall i, (i <= 1)%nat ->
                 succeedsAt demoStore demoInitial (page demoInitial + Z.of_nat i))
    by (intros i _; apply demoStore_answers).
  split; [exact H1 |].
  destruct (accumulated_concatenates demoStore demoInitial 1 H1) as [Ha _].
  exact Ha.
Defined.

Lemma fetch_failure_surfaces_witness :
  failingStore (searchRequest (set_page 2 demoFetched))
  = Rejected (StoreError "unreachable")
  /\ error (result (execute failingStore (set_page 2 demoFetched)))
     = Some (StoreError "unreachable")
  /\ page (loadMore failingStore demoFetched) = 2.
Proof.
  assert (H1 : failingStore (searchRequest (set_page 2 demoFetched))
               = Rejected (StoreError "unreachable")) by reflexivity.
  split; [exact H1 |].
  destruct (fetch_failure_surfaces failingStore (set_page 2 demoFetched)
              (StoreError "unreachable") H1)
    as (He & _ & _ & _ & _ & Hl).
  split; [exact He |].
  destruct (Hl demoFetched eq_refl) as (_ & Hp & _). exact Hp.
Defined.

Lemma watcher_settled_witness :
  reachable demoLoaded /\ flush demoLoaded = demoLoaded.
Proof.
  assert (H1 : reachable demoLoaded) by apply demoLoaded_reachable.
  split; [exact H1 |]. exact (watcher_settled demoLoaded H1).
Defined.

Lemma confirm_success_resets_witness :
  saveAll acceptAll demoLoaded = Fulfilled [tt; tt]
  /\ accumulated (confirm true acceptAll demoLoaded).1 = []
  /\ updates (confirm true acceptAll demoLoaded).1 = ∅.
Proof.
  assert (H1 : saveAll acceptAll demoLoaded = Fulfilled [tt; tt])
    by (vm_compute; reflexivity).
  split; [exact H1 |].
  destruct (confirm_success_resets demoLoaded true acceptAll [tt; tt] H1)
    as (Ha & Hu & _).
  split; [exact Ha | exact Hu].
Defined.

Lemma alreadySeen_grows_witness :
  step demoLoaded (flush (confirm true acceptAll demoLoaded).1)
  /\ flush (confirm true acceptAll demoLoaded).1 <> clearHiddenEvent demoLoaded
  /\ alreadySeen demoLoaded
     ⊆ alreadySeen (flush (confirm true acceptAll demoLoaded).1).
Proof.
  assert (H1 : step demoLoaded (flush (confirm true acceptAll demoLoaded).1)).
  { apply (step_confirm_saved true acceptAll demoLoaded [tt; tt]).
    vm_compute. reflexivity. }
  assert (H2 : flush (confirm true acceptAll demoLoaded).1
               <> clearHiddenEvent demoLoaded).
  { intros Heq. apply (f_equal page) in Heq. vm_compute in Heq.
    discriminate Heq. }
  split; [exact H1 |]. split; [exact H2 |].
  exact (alreadySeen_grows demoLoaded _ H1 H2).
Defined.

Lemma demoHidden_reachable : reachable demoHidden.
Proof.
  unfold demoHidden.
  eapply reachable_step; [| apply step_fetch].
  eapply reachable_step; [apply demoLoaded_reachable |].
  apply (step_confirm_saved true acceptAll demoLoaded [tt; tt]).
  vm_compute. reflexivity.
Qed.

Lemma demoFetched_keysInSync : keysInSync demoFetched.
Proof. unfold demoFetched, fetchEvent. apply flush_keysInSync. Qed.

Lemma entries_keyed_witness :
  reachable demoLoaded
  /\ updates demoLoaded !! "A" = Some itemA
  /\ id (asset itemA) = "A"
  /\ "A" ∉ alreadySeen demoLoaded.
Proof.
  assert (H1 : reachable demoLoaded) by apply demoLoaded_reachable.
  assert (H2 : updates demoLoaded !! "A" = Some itemA)
    by (vm_compute; reflexivity).
  split; [exact H1 |]. split; [exact H2 |].
  destruct (entries_keyed demoLoaded "A" itemA H1 H2) as (Hk & _ & Hs & _).
  split; [exact Hk | exact Hs].
Defined.

Lemma page_moves_with_clear_witness :
  step demoLoaded (loadMoreEvent demoStore demoLoaded)
  /\ (page (loadMoreEvent demoStore demoLoaded) = page demoLoaded
      \/ page (loadMoreEvent demoStore demoLoaded) = page demoLoaded + 1
      \/ (accumulated (loadMoreEvent demoStore demoLoaded) = []
          /\ updates (loadMoreEvent demoStore demoLoaded) = ∅)).
Proof.
  assert (H1 : step demoLoaded (loadMoreEvent demoStore demoLoaded))
    by apply step_loadMore.
  split; [exact H1 |].
  exact (page_moves_with_clear demoLoaded _ H1).
Defined.

Lemma fetch_appends_items_witness :
  demoStore (searchRequest demoInitial) = Fulfilled firstPage
  /\ items (execute demoStore demoInitial)
     = items demoInitial
       ++ List.filter (visible (alreadySeen demoInitial))
            (map (project (timeline demoInitial)) (page_items firstPage)).
Proof.
  assert (H1 : demoStore (searchRequest demoInitial) = Fulfilled firstPage)
    by reflexivity.
  split; [exact H1 |].
  destruct (fetch_appends_items demoStore demoInitial firstPage H1)
    as (_ & Hi & _).
  exact Hi.
Defined.

Lemma fetch_keeps_entries_witness :
  keysInSync demoFetched
  /\ demoStore (searchRequest demoFetched) = Fulfilled firstPage
  /\ dom (updates demoFetched) ⊆ dom (updates (fetchEvent demoStore demoFetched)).
Proof.
  assert (H1 : keysInSync demoFetched) by apply demoFetched_keysInSync.
  assert (H2 : demoStore (searchRequest demoFetched) = Fulfilled firstPage)
    by reflexivity.
  split; [exact H1 |]. split; [exact H2 |].
  destruct (fetch_keeps_entries demoStore demoFetched firstPage H1 H2)
    as (Hd & _).
  exact Hd.
Defined.

Lemma refetch_duplicates_witness :
  demoStore (searchRequest demoInitial) = Fulfilled firstPage
  /\ accumulated (execute demoStore (execute demoStore demoInitial))
     = accumulated demoInitial ++ page_items firstPage ++ page_items firstPage.
Proof.
  assert (H1 : demoStore (searchRequest demoInitial) = Fulfilled firstPage)
    by reflexivity.
  split; [exact H1 |].
  destruct (refetch_duplicates demoStore demoInitial firstPage H1) as (Ha & _).
  exact Ha.
Defined.

Lemma unhidden_get_entries_witness :
  reachable demoHidden
  /\ "B" ∈ alreadySeen demoHidden
  /\ "B" ∈ assetIds (accumulated demoHidden)
  /\ updates demoHidden !! "B" = None
  /\ exists item, item ∈ allAssets demoHidden /\ id (asset item) = "B"
       /\ updates (clearHiddenEvent demoHidden) !! "B" = Some item.
Proof.
  assert (H1 : reachable demoHidden) by apply demoHidden_reachable.
  assert (H2 : "B" ∈ alreadySeen demoHidden).
  { assert (Hb : bool_decide ("B" ∈ alreadySeen demoHidden) = true)
      by (vm_compute; reflexivity).
    by apply bool_decide_eq_true in Hb. }
  assert (H3 : "B" ∈ assetIds (accumulated demoHidden))
    by (apply list_elem_of_In; vm_compute; auto).
  split; [exact H1 |]. split; [exact H2 |]. split; [exact H3 |].
  destruct (unhidden_get_entries demoHidden "B" H1 H2 H3) as (Hn & Hx & _).
  split; [exact Hn | exact Hx].
Defined.

Lemma hideRest_hides_unconfirmed_witness :
  reachable demoLoaded
  /\ saveAll acceptAll demoLoaded = Fulfilled [tt; tt]
  /\ updates demoLoaded !! "B" = Some itemB
  /\ ("B" ∈ alreadySeen (confirm true acceptAll demoLoaded).1 <->
      confirmEdit itemB = false).
Proof.
  assert (H1 : reachable demoLoaded) by apply demoLoaded_reachable.
  assert (H2 : saveAll acceptAll demoLoaded = Fulfilled [tt; tt])
    by (vm_compute; reflexivity).
  assert (H3 : updates demoLoaded !! "B" = Some itemB)
    by (vm_compute; reflexivity).
  split; [exact H1 |]. split; [exact H2 |]. split; [exact H3 |].
  exact (hideRest_hides_unconfirmed demoLoaded acceptAll [tt; tt] "B" itemB
           H1 H2 H3).
Defined.

Lemma hidden_rest_stays_hidden_witness :
  saveAll acceptAll demoLoaded = Fulfilled [tt; tt]
  /\ itemB ∈ unconfirmedUpdates demoLoaded
  /\ updates demoHidden !! (id (asset itemB)) = None.
Proof.
  assert (H1 : saveAll acceptAll demoLoaded = Fulfilled [tt; tt])
    by (vm_compute; reflexivity).
  assert (H2 : itemB ∈ unconfirmedUpdates demoLoaded)
    by (apply list_elem_of_In; vm_compute; auto).
  split; [exact H1 |]. split; [exact H2 |].
  destruct (hidden_rest_stays_hidden demoLoaded acceptAll [tt; tt] demoStore
              itemB H1 H2) as (_ & _ & Hn).
  exact Hn.
Defined.

Lemma recomputePage_at_least_one_iff_witness :
  2 <> 0
  /\ (1 <= recomputePage 3 2 2 <->
      (0 < 2 /\ - 2 < 3 - 2) \/ (2 < 0 /\ 3 - 2 < - 2)).
Proof.
  assert (H1 : 2 <> 0) by discriminate.
  split; [exact H1 |].
  exact (recomputePage_at_least_one_iff 3 2 2 H1).
Defined.

Lemma confirm_resumes_at_first_page_witness :
  reachable demoLoaded
  /\ 0 < pageSize (props demoLoaded)
  /\ saveAll acceptAll demoLoaded = Fulfilled [tt; tt]
  /\ (page (confirm false acceptAll demoLoaded).1 = 1 <->
      Z.of_nat (List.length (items demoLoaded))
      - Z.of_nat (List.length (confirmedUpdates demoLoaded))
      <= pageSize (props demoLoaded)).
Proof.
  assert (H1 : reachable demoLoaded) by apply demoLoaded_reachable.
  assert (H2 : 0 < pageSize (props demoLoaded)) by (vm_compute; reflexivity).
  assert (H3 : saveAll acceptAll demoLoaded = Fulfilled [tt; tt])
    by (vm_compute; reflexivity).
  split; [exact H1 |]. split; [exact H2 |]. split; [exact H3 |].
  exact (confirm_resumes_at_first_page demoLoaded false acceptAll [tt; tt]
           H1 H2 H3).
Defined.

Lemma no_images_iff_no_entries_witness :
  reachable demoLoaded
  /\ (noImagesFound demoLoaded = true <-> updates demoLoaded = ∅).
Proof.
  assert (H1 : reachable demoLoaded) by apply demoLoaded_reachable.
  split; [exact H1 |]. exact (no_images_iff_no_entries demoLoaded H1).
Defined.

Lemma loadMore_offered_by_next_page_witness :
  demoStore (searchRequest demoInitial) = Fulfilled firstPage
  /\ loadMoreDisabled (fetchEvent demoStore demoInitial) = false.
Proof.
  assert (H1 : demoStore (searchRequest demoInitial) = Fulfilled firstPage)
    by reflexivity.
  split; [exact H1 |].
  destruct (loadMore_offered_by_next_page demoStore demoInitial firstPage H1)
    as (Hd & _).
  exact Hd.
Defined.

Lemma confirm_sends_exactly_confirmed_witness :
  reachable demoLoaded
  /\ List.length (sentRequests (confirmedUpdates demoLoaded))
     = List.length (confirmedUpdates demoLoaded).
Proof.
  assert (H1 : reachable demoLoaded) by apply demoLoaded_reachable.
  split; [exact H1 |].
  destruct (confirm_sends_exactly_confirmed demoLoaded
              {| upd_id := "A"; latitude := 1; longitude := 2 |} H1)
    as (_ & Hlen & _).
  exact Hlen.
Defined.

Lemma moved_marker_is_saved_witness :
  reachable demoLoaded
  /\ updates demoLoaded !! "B" = Some itemB
  /\ {| upd_id := "B"; latitude := lat pointB; longitude := lng pointB |}
     ∈ sentRequests (confirmedUpdates (moveMarker "B" pointB demoLoaded)).
Proof.
  assert (H1 : reachable demoLoaded) by apply demoLoaded_reachable.
  assert (H2 : updates demoLoaded !! "B" = Some itemB)
    by (vm_compute; reflexivity).
  split; [exact H1 |]. split; [exact H2 |].
  destruct (moved_marker_is_saved demoLoaded "B" itemB pointB H1 H2)
    as (_ & _ & _ & Hq).
  exact Hq.
Defined.

Lemma merge_into_empty_witness :
  NoDup (ids [itemA; itemB])
  /\ size (merge [itemA; itemB] ∅) = 2%nat.
Proof.
  assert (H1 : NoDup (ids [itemA; itemB])).
  { apply NoDup_cons. split.
    - intros Hin. apply list_elem_of_In in Hin. vm_compute in Hin.
      destruct Hin as [Heq | []]. discriminate Heq.
    - apply NoDup_cons. split; [| apply NoDup_nil_2].
      intros Hin. by apply elem_of_nil in Hin. }
  split; [exact H1 |].
  destruct (merge_into_empty [itemA; itemB] H1) as [_ Hs]. exact Hs.
Defined.

Lemma merge_refreshes_unlocated_witness :
  ({[ "B" := itemB ]} : gmap string Item) !! "B" = Some itemB
  /\ estimatedLocation itemB = None
  /\ "B" ∈ ids [itemA; itemB]
  /\ exists item, item ∈ [itemA; itemB] /\ id (asset item) = "B"
       /\ merge [itemA; itemB] {[ "B" := itemB ]} !! "B" = Some item.
Proof.
  assert (H1 : ({[ "B" := itemB ]} : gmap string Item) !! "B" = Some itemB)
    by (vm_compute; reflexivity).
  assert (H2 : estimatedLocation itemB = None) by reflexivity.
  assert (H3 : "B" ∈ ids [itemA; itemB])
    by (apply list_elem_of_In; vm_compute; auto).
  split; [exact H1 |]. split; [exact H2 |]. split; [exact H3 |].
  exact (merge_refreshes_unlocated [itemA; itemB] {[ "B" := itemB ]} "B" itemB
           H1 H2 H3).
Defined.

Lemma unconfirm_round_trip_witness :
  reachable demoLoaded
  /\ updates demoLoaded !! "A" = Some itemA
  /\ confirmEdit itemA = true
  /\ setConfirmEdit "A" true (setConfirmEdit "A" false demoLoaded) = demoLoaded.
Proof.
  assert (H1 : reachable demoLoaded) by apply demoLoaded_reachable.
  assert (H2 : updates demoLoaded !! "A" = Some itemA)
    by (vm_compute; reflexivity).
  assert (H3 : confirmEdit itemA = true) by reflexivity.
  split; [exact H1 |]. split; [exact H2 |]. split; [exact H3 |].
  destruct (unconfirm_round_trip demoLoaded "A" itemA H1 H2 H3) as (_ & _ & Hs).
  exact Hs.
Defined.

(** ** Counterexamples *)

(** C3 as stated fails: when the update of [A] is rejected, the promise of
    [confirm] is fulfilled all the same; no error is returned. *)
Lemma confirm_failure_returns_no_error :
  saveAll rejectA demoLoaded = Rejected (StoreError "update failed")
  /\ confirmResult false rejectA demoLoaded = Fulfilled tt
  /\ ~ commitReturnsError (Ext := demoExt).
Proof.
  assert (Hs : saveAll rejectA demoLoaded
               = Rejected (StoreError "update failed"))
    by (vm_compute; reflexivity).
  split; [exact Hs |]. split; [vm_compute; reflexivity |].
  intros Hclaim.
  destruct (Hclaim false rejectA demoLoaded _ Hs) as [e' He'].
  vm_compute in He'. discriminate He'.
Qed.

(** C4 as stated fails: a store whose pages overlap leaves the same asset
    id twice in the accumulated list after two fetches. *)
Lemma accumulation_keeps_duplicates :
  accumulated (loadMore overlappingStore (execute overlappingStore demoInitial))
  = [assetA; assetA]
  /\ ~ NoDup (assetIds [assetA; assetA])
  /\ ~ accumulationDeduplicates (Ext := demoExt).
Proof.
  assert (Hdup : ~ NoDup (assetIds [assetA; assetA])).
  { intros Hn. apply NoDup_cons in Hn as [Hn _]. apply Hn. by left. }
  split; [reflexivity |]. split; [exact Hdup |].
  intros Hclaim. apply Hdup.
  apply (Hclaim overlappingStore demoProps tt ∅ 1%nat).
  intros k. unfold succeedsAt, overlappingStore. eauto.
Qed.

(** C8 as stated fails: after a "Load more items" whose search is rejected
    the error is surfaced and the list is kept (here), but the page is the
    incremented one. *)
Lemma loadMore_failure_advances_page :
  error (result (loadMore failingStore demoFetched))
  = Some (StoreError "unreachable")
  /\ accumulated (loadMore failingStore demoFetched) = accumulated demoFetched
  /\ page demoFetched = 1
  /\ page (loadMore failingStore demoFetched) = 2
  /\ ~ loadMoreFailurePreserves (Ext := demoExt).
Proof.
  do 4 (split; [reflexivity |]).
  intros Hclaim.
  destruct (Hclaim failingStore demoFetched (StoreError "unreachable") eq_refl)
    as (_ & _ & Hp).
  discriminate Hp.
Qed.
